(** * The two-flag spin lock of [simple_threading.c]

    A shallow embedding of [simple_lock_init], [simple_lock_acquire] and
    [simple_lock_release], statement by statement: every access to the
    shared [lock] is one labelled step of the executing thread, threads are
    interleaved by an arbitrary schedule, and each step sees the memory the
    previous step (of whichever thread) left.  The memory orders written in
    the source are kept as labels on the steps.  Two machines execute the
    steps: a sequentially consistent interleaving, and one in which the
    plain stores of the source reach the shared memory late and out of
    order, as nothing in the source forbids. *)

From Stdlib Require Import ZArith Lia.
From stdpp Require Import base tactics option list.

Local Open Scope Z_scope.

(* ------------------------------------------------------------------ *)
(** ** The lock object *)

(** [simple_lock_t]: [flag] is the main lock flag, [guard] protects the
    flag, [queue] counts the threads that announced an acquisition. *)
Record simple_lock_t := mk_lock {
  flag : bool;
  guard : bool;
  queue : Z
}.

Definition set_flag (v : bool) (l : simple_lock_t) : simple_lock_t :=
  mk_lock v (guard l) (queue l).
Definition set_guard (v : bool) (l : simple_lock_t) : simple_lock_t :=
  mk_lock (flag l) v (queue l).
Definition set_queue (v : Z) (l : simple_lock_t) : simple_lock_t :=
  mk_lock (flag l) (guard l) v.

(** [queue] is a C [int]: the atomic builtins wrap around in two's
    complement on 32 bits. *)
Definition INT_MIN : Z := - 2 ^ 31.
Definition INT_MAX : Z := 2 ^ 31 - 1.
Definition wrap_int (z : Z) : Z := (z - INT_MIN) mod 2 ^ 32 + INT_MIN.

(** [simple_lock_init]: three plain stores, in the order of the source. *)
Definition simple_lock_init (l : simple_lock_t) : simple_lock_t :=
  set_queue 0 (set_guard false (set_flag false l)).

(* ------------------------------------------------------------------ *)
(** ** Shared memory and the actions of one statement *)

(** Modelled from the spec: the shared non-atomic counter of the
    mutual-exclusion test (section 8); the source's critical section only
    prints.  The global [lock] is the one of the source. *)
Record memory := mk_mem {
  lock : simple_lock_t;
  counter : Z
}.

Inductive memorder := ATOMIC_ACQUIRE | ATOMIC_RELEASE | ATOMIC_SEQ_CST.

(** The two [volatile bool] fields of the lock. *)
Inductive field := Flag | Guard.

Definition get_field (f : field) (l : simple_lock_t) : bool :=
  match f with Flag => flag l | Guard => guard l end.
Definition set_field (f : field) (v : bool) (l : simple_lock_t) : simple_lock_t :=
  match f with Flag => set_flag v l | Guard => set_guard v l end.

(** One access to shared memory.  The [Atomic*] actions are the
    [__atomic_*] builtins and carry the memory order written in the source;
    [PlainRead] and [PlainWrite] are ordinary accesses to a [volatile]
    field ([lock->flag], [lock->guard = false]) and carry none; [Usleep] is
    the delay. *)
Inductive action :=
| AtomicFetchAddQueue (n : Z) (mo : memorder)
| AtomicFetchSubQueue (n : Z) (mo : memorder)
| AtomicTestAndSet (f : field) (mo : memorder)
| AtomicStore (f : field) (v : bool) (mo : memorder)
| PlainRead (f : field)
| PlainWrite (f : field) (v : bool)
| Usleep (us : Z)
| ReadCounter
| WriteCounter (v : Z).

Inductive value := VUnit | VBool (b : bool) | VInt (z : Z).

(** An event is an action together with the value it returned. *)
Definition event : Type := action * value.

(** The effect of an action on the lock and the value it yields.  The
    fetch-and-add family returns the old contents, test-and-set returns the
    old value and stores [true] unconditionally. *)
Definition lock_perform (a : action) (l : simple_lock_t) : simple_lock_t * value :=
  match a with
  | AtomicFetchAddQueue n _ => (set_queue (wrap_int (queue l + n)) l, VInt (queue l))
  | AtomicFetchSubQueue n _ => (set_queue (wrap_int (queue l - n)) l, VInt (queue l))
  | AtomicTestAndSet f _ => (set_field f true l, VBool (get_field f l))
  | AtomicStore f v _ => (set_field f v l, VUnit)
  | PlainRead f => (l, VBool (get_field f l))
  | PlainWrite f v => (set_field f v l, VUnit)
  | Usleep _ => (l, VUnit)
  | ReadCounter => (l, VUnit)
  | WriteCounter _ => (l, VUnit)
  end.

Definition perform (a : action) (m : memory) : memory * value :=
  match a with
  | ReadCounter => (m, VInt (counter m))
  | WriteCounter v => (mk_mem (lock m) v, VUnit)
  | _ => let '(l', v) := lock_perform a (lock m) in (mk_mem l' (counter m), v)
  end.

(* ------------------------------------------------------------------ *)
(** ** Control points *)

(** A control point names the statement about to be executed, by its line
    in [simple_threading.c].  [L33]..[L57] are [simple_lock_acquire],
    [L63] is [simple_lock_release]; [Ret] is the return to the caller.
    [CS_read] and [CS_write] are the two halves of the caller's
    non-atomic [counter++]. *)
Inductive pc :=
| L33 | L38 | L40 | L44 | L46 | L47 | L52 | L53 | L57
| L63
| CS_read | CS_write
| Ret.

Global Instance pc_eq_dec : EqDecision pc.
Proof. solve_decision. Defined.

(** The statement at a control point; [tmp] is the caller's local copy of
    the counter. *)
Definition action_at (p : pc) (tmp : Z) : option action :=
  match p with
  | L33 => Some (AtomicFetchAddQueue 1 ATOMIC_SEQ_CST)
  | L38 => Some (AtomicTestAndSet Guard ATOMIC_ACQUIRE)
  | L40 => Some (Usleep 10)
  | L44 => Some (PlainRead Flag)
  | L46 => Some (PlainWrite Flag true)
  | L47 => Some (PlainWrite Guard false)
  | L52 => Some (PlainWrite Guard false)
  | L53 => Some (Usleep 100)
  | L57 => Some (AtomicFetchSubQueue 1 ATOMIC_SEQ_CST)
  | L63 => Some (AtomicStore Flag false ATOMIC_RELEASE)
  | CS_read => Some ReadCounter
  | CS_write => Some (WriteCounter (tmp + 1))
  | Ret => None
  end.

(** Where control goes next, given the value the statement returned. *)
Definition next_pc (p : pc) (v : value) : pc :=
  match p with
  | L33 => L38
  | L38 => match v with VBool true => L40 | _ => L44 end
  | L40 => L38
  | L44 => match v with VBool true => L52 | _ => L46 end
  | L46 => L47
  | L47 => L57
  | L52 => L53
  | L53 => L38
  | L57 => Ret
  | L63 => Ret
  | CS_read => CS_write
  | CS_write => Ret
  | Ret => Ret
  end.

Definition next_tmp (p : pc) (tmp : Z) (v : value) : Z :=
  match p, v with
  | CS_read, VInt z => z
  | _, _ => tmp
  end.

(** One statement of one thread. *)
Definition step_pc (p : pc) (tmp : Z) (m : memory)
  : option (pc * Z * memory * event) :=
  match action_at p tmp with
  | None => None
  | Some a =>
      let '(m', v) := perform a m in
      Some (next_pc p v, next_tmp p tmp v, m', (a, v))
  end.

(* ------------------------------------------------------------------ *)
(** ** A call executed without interference *)

(** Runs one call from its entry point until it returns; [None] when the
    fuel runs out first (the call is still spinning). *)
Fixpoint call (fuel : nat) (p : pc) (tmp : Z) (m : memory)
  : option (memory * list event) :=
  match p with
  | Ret => Some (m, [])
  | _ =>
      match fuel with
      | O => None
      | S fuel' =>
          match step_pc p tmp m with
          | None => Some (m, [])
          | Some (p', tmp', m', ev) =>
              match call fuel' p' tmp' m' with
              | None => None
              | Some (m'', tr) => Some (m'', ev :: tr)
              end
          end
      end
  end.

Definition in_memory (l : simple_lock_t) : memory := mk_mem l 0.

Definition simple_lock_acquire (fuel : nat) (l : simple_lock_t)
  : option (simple_lock_t * list event) :=
  match call fuel L33 0 (in_memory l) with
  | None => None
  | Some (m, tr) => Some (lock m, tr)
  end.

(** [simple_lock_release] is a single statement and needs no fuel. *)
Definition simple_lock_release (l : simple_lock_t) : simple_lock_t :=
  fst (lock_perform (AtomicStore Flag false ATOMIC_RELEASE) l).

Definition release_trace (l : simple_lock_t) : option (simple_lock_t * list event) :=
  match call 1 L63 0 (in_memory l) with
  | None => None
  | Some (m, tr) => Some (lock m, tr)
  end.

(* ------------------------------------------------------------------ *)
(** ** One thread under arbitrary interference *)

(** The thread executes one statement per element of [env]; the element is
    the shared memory it finds at that moment, whatever the other threads
    made of it since its previous statement.  The result is the control
    point reached and the events of this thread. *)
Fixpoint thread_run (env : list memory) (p : pc) (tmp : Z) : pc * list event :=
  match env with
  | [] => (p, [])
  | m :: env' =>
      match step_pc p tmp m with
      | None => (p, [])
      | Some (p', tmp', _, ev) =>
          let '(q, tr) := thread_run env' p' tmp' in (q, ev :: tr)
      end
  end.

(* ------------------------------------------------------------------ *)
(** ** Threads, programs and the interleaving *)

(** What a caller does with the lock.  [OpIncr] is the critical-section
    body of the mutual-exclusion test, a non-atomic [counter++]. *)
Inductive op := OpAcquire | OpIncr | OpRelease.

Definition entry (o : op) : pc :=
  match o with
  | OpAcquire => L33
  | OpIncr => CS_read
  | OpRelease => L63
  end.

Record thread := mk_thread {
  t_pc : pc;
  t_tmp : Z;
  t_todo : list op
}.

(** On return the caller goes on with its next operation, if any. *)
Definition resume (p : pc) (todo : list op) : pc * list op :=
  match p with
  | Ret =>
      match todo with
      | [] => (Ret, [])
      | o :: rest => (entry o, rest)
      end
  | _ => (p, todo)
  end.

Definition spawn (prog : list op) : thread :=
  let '(p, todo) := resume Ret prog in mk_thread p 0 todo.

Definition thread_step (t : thread) (m : memory)
  : option (thread * memory * event) :=
  match step_pc (t_pc t) (t_tmp t) m with
  | None => None
  | Some (p', tmp', m', ev) =>
      let '(p'', todo') := resume p' (t_todo t) in
      Some (mk_thread p'' tmp' todo', m', ev)
  end.

Record system := mk_sys {
  mem : memory;
  threads : list thread
}.

(** Thread [i] executes its next statement; [None] when there is no such
    thread or it has finished. *)
Definition sys_step (i : nat) (s : system) : option system :=
  match threads s !! i with
  | None => None
  | Some t =>
      match thread_step t (mem s) with
      | None => None
      | Some (t', m', _) => Some (mk_sys m' (<[i := t']> (threads s)))
      end
  end.

(** A schedule is the list of the threads chosen to move, in order; a
    choice that cannot move is skipped. *)
Fixpoint exec (sched : list nat) (s : system) : system :=
  match sched with
  | [] => s
  | i :: rest => exec rest (default s (sys_step i s))
  end.

(** The lock is initialised once, then the threads are created, as in
    [main]. *)
Definition start (l : simple_lock_t) (progs : list (list op)) : system :=
  mk_sys (mk_mem (simple_lock_init l) 0) (map spawn progs).

(** [thread_function]: acquire, the critical section, release.  The
    critical section is the [counter++] of the test. *)
Definition thread_function : list op := [OpAcquire; OpIncr; OpRelease].

(** A thread that runs [thread_function] [k] times. *)
Fixpoint worker (k : nat) : list op :=
  match k with
  | O => []
  | S k' => thread_function ++ worker k'
  end.

(** [main]: one lock, three threads running [thread_function]. *)
Definition main (l : simple_lock_t) : system :=
  start l [thread_function; thread_function; thread_function].

Definition finished (t : thread) : bool :=
  match t_pc t, t_todo t with
  | Ret, [] => true
  | _, _ => false
  end.

(** [n] consecutive statements of one thread, the others standing still. *)
Fixpoint thread_iter (n : nat) (t : thread) (m : memory) : option (thread * memory) :=
  match n with
  | O => Some (t, m)
  | S n' =>
      match thread_step t m with
      | None => None
      | Some (t', m', _) => thread_iter n' t' m'
      end
  end.

(** A thread between two calls, with [k] rounds left. *)
Definition idle_worker (tmp : Z) (k : nat) : thread :=
  let '(p, todo) := resume Ret (worker k) in mk_thread p tmp todo.

(** Every thread in turn runs all its rounds. *)
Fixpoint one_after_another (i : nat) (rounds : list nat) : list nat :=
  match rounds with
  | [] => []
  | k :: rest => replicate (9 * k) i ++ one_after_another (S i) rest
  end.

(* ------------------------------------------------------------------ *)
(** ** Counting threads by control point *)

Definition total (w : thread -> nat) (ts : list thread) : nat :=
  foldr (fun t n => (w t + n)%nat) O ts.

Definition b2n (b : bool) : nat := if b then 1%nat else 0%nat.

Definition count (P : pc -> bool) (ts : list thread) : nat :=
  total (fun t => b2n (P (t_pc t))) ts.

(** Between the successful test-and-set and the clearing store. *)
Definition holds_guard (p : pc) : bool :=
  match p with L44 | L46 | L47 | L52 => true | _ => false end.

(** After the increment of [queue] and before its decrement. *)
Definition contending (p : pc) : bool :=
  match p with
  | L38 | L40 | L44 | L46 | L47 | L52 | L53 | L57 => true
  | _ => false
  end.

(** After [flag = true] at line 46 and before the store of line 63. *)
Definition owns_flag (p : pc) : bool :=
  match p with L47 | L57 | CS_read | CS_write | L63 => true | _ => false end.

Definition about_to_own (p : pc) : bool :=
  match p with L46 => true | _ => false end.

(** Returned from acquire, release not yet performed. *)
Definition after_acquire (p : pc) : bool :=
  match p with CS_read | CS_write | L63 => true | _ => false end.

(** Inside the caller's critical section. *)
Definition in_critical (p : pc) : bool :=
  match p with CS_read | CS_write => true | _ => false end.


Definition in_acquire (p : pc) : bool :=
  match p with
  | L33 | L38 | L40 | L44 | L46 | L47 | L52 | L53 | L57 => true
  | _ => false
  end.

(** Inside a call of acquire, or just returned from it. *)
Definition acquire_or_ret (p : pc) : Prop := in_acquire p = true \/ p = Ret.

(** Increments a thread still has to perform. *)
Fixpoint incrs (todo : list op) : nat :=
  match todo with
  | [] => O
  | OpIncr :: rest => S (incrs rest)
  | _ :: rest => incrs rest
  end.

Definition pending (t : thread) : nat :=
  (b2n (in_critical (t_pc t)) + incrs (t_todo t))%nat.

(* ------------------------------------------------------------------ *)
(** ** The acquire algorithm as the specification words it *)

Definition tas_guard (old : bool) (ev : event) : Prop :=
  exists mo, ev = (AtomicTestAndSet Guard mo, VBool old).

Definition stores (f : field) (v : bool) (ev : event) : Prop :=
  ev = (PlainWrite f v, VUnit) \/ exists mo, ev = (AtomicStore f v mo, VUnit).

Definition sees_held (b : bool) (ev : event) : Prop :=
  ev = (PlainRead Flag, VBool b).

Definition sleeps (us : Z) (ev : event) : Prop :=
  ev = (Usleep us, VUnit).

Definition incs_waiters (ev : event) : Prop :=
  exists mo old, ev = (AtomicFetchAddQueue 1 mo, VInt old).

Definition decs_waiters (ev : event) : Prop :=
  exists mo old, ev = (AtomicFetchSubQueue 1 mo, VInt old).

Section SpecAlgorithm.
Variables spin_delay backoff : Z.

(** (a) Spin, with a short delay between attempts, until a
    test-and-set finds [guard] false. *)
Inductive spec_spin : list event -> Prop :=
| spec_spin_won ev :
    tas_guard false ev -> spec_spin [ev]
| spec_spin_wait ev d tr :
    tas_guard true ev -> sleeps spin_delay d -> spec_spin tr ->
    spec_spin (ev :: d :: tr).

(** (b) [held] false: set it, clear [guard], leave the loop.
    (c) [held] true: clear [guard], back off, retry from (a). *)
Inductive spec_loop : list event -> Prop :=
| spec_loop_acquired spin r w c :
    spec_spin spin -> sees_held false r -> stores Flag true w ->
    stores Guard false c ->
    spec_loop (spin ++ [r; w; c])
| spec_loop_retry spin r c d rest :
    spec_spin spin -> sees_held true r -> stores Guard false c ->
    sleeps backoff d -> spec_loop rest ->
    spec_loop (spin ++ r :: c :: d :: rest).

(** Steps 1 to 3 of acquire. *)
Definition spec_acquire (tr : list event) : Prop :=
  exists i body d,
    tr = i :: body ++ [d] /\ incs_waiters i /\ spec_loop body /\ decs_waiters d.
End SpecAlgorithm.

(** What each of these events does to the shared memory, in the words of
    the specification: the test-and-set returns the old [guard] and leaves
    it set, "held is false / true" is the value of [flag] at that moment,
    "sets held to true" and "clears guard" change that one field, a delay
    changes nothing, and the two atomic updates of [queue] add and
    subtract one. *)
Definition effect_as_specified (ev : event) (m m' : memory) : Prop :=
  counter m' = counter m
  /\ (forall old, tas_guard old ev ->
        guard (lock m) = old /\ guard (lock m') = true
        /\ flag (lock m') = flag (lock m) /\ queue (lock m') = queue (lock m))
  /\ (forall b, sees_held b ev -> flag (lock m) = b /\ m' = m)
  /\ (forall v, stores Flag v ev ->
        flag (lock m') = v
        /\ guard (lock m') = guard (lock m) /\ queue (lock m') = queue (lock m))
  /\ (forall v, stores Guard v ev ->
        guard (lock m') = v
        /\ flag (lock m') = flag (lock m) /\ queue (lock m') = queue (lock m))
  /\ (forall us, sleeps us ev -> m' = m)
  /\ (incs_waiters ev ->
        queue (lock m') = wrap_int (queue (lock m) + 1)
        /\ flag (lock m') = flag (lock m) /\ guard (lock m') = guard (lock m))
  /\ (decs_waiters ev ->
        queue (lock m') = wrap_int (queue (lock m) - 1)
        /\ flag (lock m') = flag (lock m) /\ guard (lock m') = guard (lock m)).

(** What remains of a call of acquire from each control point, in the
    terms of the specification. *)
Definition completes (p : pc) (k : list event) : Prop :=
  match p with
  | L33 => spec_acquire 10 100 k
  | L38 => exists body d, k = body ++ [d] /\ spec_loop 10 100 body /\ decs_waiters d
  | L40 => exists s body d,
      k = s :: body ++ [d] /\ sleeps 10 s /\ spec_loop 10 100 body /\ decs_waiters d
  | L44 =>
      (exists r w c d, k = [r; w; c; d] /\ sees_held false r /\ stores Flag true w
                       /\ stores Guard false c /\ decs_waiters d)
      \/ (exists r c s body d, k = r :: c :: s :: body ++ [d] /\ sees_held true r
                       /\ stores Guard false c /\ sleeps 100 s
                       /\ spec_loop 10 100 body /\ decs_waiters d)
  | L46 => exists w c d, k = [w; c; d] /\ stores Flag true w
                         /\ stores Guard false c /\ decs_waiters d
  | L47 => exists c d, k = [c; d] /\ stores Guard false c /\ decs_waiters d
  | L52 => exists c s body d, k = c :: s :: body ++ [d] /\ stores Guard false c
                         /\ sleeps 100 s /\ spec_loop 10 100 body /\ decs_waiters d
  | L53 => exists s body d, k = s :: body ++ [d] /\ sleeps 100 s
                         /\ spec_loop 10 100 body /\ decs_waiters d
  | L57 => exists d, k = [d] /\ decs_waiters d
  | Ret => k = []
  | L63 | CS_read | CS_write => False
  end.

Definition touches_queue (ev : event) : bool :=
  match fst ev with
  | AtomicFetchAddQueue _ _ | AtomicFetchSubQueue _ _ => true
  | _ => false
  end.



(** The memory order of a store to a field, if the store is atomic. *)
Definition store_order (f : field) (a : action) : option (option memorder) :=
  match a, f with
  | AtomicStore Flag _ mo, Flag => Some (Some mo)
  | AtomicStore Guard _ mo, Guard => Some (Some mo)
  | PlainWrite Flag _, Flag => Some None
  | PlainWrite Guard _, Guard => Some None
  | _, _ => None
  end.

(** The stores to [guard] among the events of a call, each with the
    memory order it carries ([None] for a plain store). *)
Definition guard_store_orders (tr : list event) : list (option memorder) :=
  omap (fun ev : event => store_order Guard (fst ev)) tr.

(* ------------------------------------------------------------------ *)
(** ** Invariants of the interleaving *)

(** [guard] is set exactly while one thread is between its successful
    test-and-set and its clearing store. *)
Definition inv_guard (s : system) : Prop :=
  b2n (guard (lock (mem s))) = count holds_guard (threads s).

(** [queue] is the number of contending threads. *)
Definition inv_queue (s : system) : Prop :=
  queue (lock (mem s)) = Z.of_nat (count contending (threads s)).

(** A thread running [worker]: the operations left to do are determined
    by where it is. *)
Definition worker_shape (t : thread) : Prop :=
  exists k,
    match t_pc t with
    | L33 | L38 | L40 | L44 | L46 | L47 | L52 | L53 | L57 =>
        t_todo t = OpIncr :: OpRelease :: worker k
    | CS_read | CS_write => t_todo t = OpRelease :: worker k
    | L63 => t_todo t = worker k
    | Ret => t_todo t = []
    end.

(** A thread about to write back a value that is no longer [c + 1]. *)
Definition stale (c : Z) (t : thread) : nat :=
  match t_pc t with
  | CS_write => b2n (negb (t_tmp t =? c))
  | _ => O
  end.

Definition inv_worker (n : nat) (s : system) : Prop :=
  Forall worker_shape (threads s)
  /\ inv_guard s
  /\ b2n (flag (lock (mem s))) = count owns_flag (threads s)
  /\ (b2n (flag (lock (mem s))) + count about_to_own (threads s) <= 1)%nat
  /\ total (stale (counter (mem s))) (threads s) = O
  /\ counter (mem s) + Z.of_nat (total pending (threads s)) = Z.of_nat n.

(** Equality of everything but [queue]. *)
Definition same_but_queue (m1 m2 : memory) : Prop :=
  flag (lock m1) = flag (lock m2)
  /\ guard (lock m1) = guard (lock m2)
  /\ counter m1 = counter m2.

Definition sys_same_but_queue (s1 s2 : system) : Prop :=
  threads s1 = threads s2 /\ same_but_queue (mem s1) (mem s2).

(* ------------------------------------------------------------------ *)
(** ** Sample executions *)

(** An environment in which the caller first finds [guard] taken, then
    [flag] set, and then the lock free. *)
Definition busy_then_free : list memory :=
  let free := mk_mem (mk_lock false false 1) 0 in
  let taken := mk_mem (mk_lock true true 2) 0 in
  let held := mk_mem (mk_lock true false 2) 0 in
  [ free; taken; taken; held; held; held; held;
    free; free; free; free; free ].

(** Threads 0, 1 and 2 take turns, one statement each. *)
Definition round_robin : list nat := concat (replicate 40 [0; 1; 2]%nat).







(** What a call of acquire run alone can rely on at each control point. *)
Definition acquire_pre (p : pc) (m : memory) : Prop :=
  match p with
  | L47 => flag (lock m) = true
  | L57 => flag (lock m) = true /\ guard (lock m) = false
  | _ => True
  end.

(* ------------------------------------------------------------------ *)
(** ** Further notions about the lock *)

(** The states from which a call of acquire, left alone, goes round its
    loops for ever: [guard] is taken and nobody will clear it, or [flag] is
    set and nobody will release it. *)
Definition spins_forever (p : pc) (m : memory) : Prop :=
  match p with
  | L33 | L38 | L40 | L53 => guard (lock m) = true \/ flag (lock m) = true
  | L44 | L52 => flag (lock m) = true
  | _ => False
  end.

(** [queue] holds a value of type [int]. *)
Definition queue_is_int (l : simple_lock_t) : Prop :=
  INT_MIN <= queue l <= INT_MAX.

(** Neither [flag] nor [guard] is set. *)
Definition lock_is_free (m : memory) : Prop :=
  flag (lock m) = false /\ guard (lock m) = false.

(** At the entry of acquire or waiting in one of its loops. *)
Definition waiting (p : pc) : bool :=
  match p with L33 | L38 | L40 | L53 => true | _ => false end.

(** A thread running [worker] that has finished, or that waits for the
    lock with whole rounds left. *)
Definition idle_shape (t : thread) : Prop :=
  finished t = true
  \/ (waiting (t_pc t) = true
      /\ exists k, t_todo t = OpIncr :: OpRelease :: worker k).

(* ------------------------------------------------------------------ *)
(** ** Plain stores that reach memory late *)

(** The interleaving above lets every store reach the shared memory at
    once and in program order.  The source asks for less: the stores of
    lines 46, 47 and 52 are ordinary assignments to [volatile] fields, and
    the only ordering a thread imposes on its accesses is what its
    [__atomic_*] calls carry (acquire at line 38, sequentially consistent
    at lines 33 and 57, release at line 63).  In the machine below a plain
    store first enters a buffer of the storing thread and is committed to
    the shared memory by a later move; two buffered stores to different
    locations may be committed in either order, stores to one location
    keep their order.  A thread reads its own buffered stores.  An atomic
    access works on the shared memory; before it, a release or
    sequentially consistent access commits the whole buffer of its thread,
    an acquire access only the buffered stores to its own location.
    Control flow ([action_at], [next_pc], [resume]) is that of the
    interleaving. *)

Inductive location := LocField (f : field) | LocQueue | LocCounter.

Global Instance field_eq_dec : EqDecision field.
Proof. solve_decision. Defined.

Global Instance location_eq_dec : EqDecision location.
Proof. solve_decision. Defined.

(** A plain store waiting in a buffer: [lock->flag = v], [lock->guard = v]
    or the caller's write of the counter. *)
Inductive plain_store := ToField (f : field) (v : bool) | ToCounter (v : Z).

Definition written (e : plain_store) : location :=
  match e with
  | ToField f _ => LocField f
  | ToCounter _ => LocCounter
  end.

(** The store reaches the shared memory. *)
Definition commit (e : plain_store) (m : memory) : memory :=
  match e with
  | ToField f v => fst (perform (PlainWrite f v) m)
  | ToCounter v => fst (perform (WriteCounter v) m)
  end.

Definition commit_all (buf : list plain_store) (m : memory) : memory :=
  foldl (fun m e => commit e m) m buf.

(** The buffered stores an atomic access of order [mo] to [loc] commits
    before it is performed. *)
Definition forced (mo : memorder) (loc : location) (e : plain_store) : bool :=
  match mo with
  | ATOMIC_ACQUIRE => bool_decide (written e = loc)
  | ATOMIC_RELEASE | ATOMIC_SEQ_CST => true
  end.

Definition fence (mo : memorder) (loc : location) (buf : list plain_store)
    (m : memory) : list plain_store * memory :=
  (List.filter (fun e => negb (forced mo loc e)) buf,
   commit_all (List.filter (forced mo loc) buf) m).

(** One action of a thread with buffer [buf]: the buffer and the shared
    memory after it, and the value returned. *)
Definition weak_perform (a : action) (buf : list plain_store) (m : memory)
  : list plain_store * memory * value :=
  let atomic mo loc :=
    let '(buf', m1) := fence mo loc buf m in
    let '(m2, v) := perform a m1 in (buf', m2, v) in
  match a with
  | PlainWrite f v => (buf ++ [ToField f v], m, VUnit)
  | WriteCounter v => (buf ++ [ToCounter v], m, VUnit)
  | PlainRead _ | ReadCounter => (buf, m, snd (perform a (commit_all buf m)))
  | Usleep _ => (buf, m, VUnit)
  | AtomicFetchAddQueue _ mo | AtomicFetchSubQueue _ mo => atomic mo LocQueue
  | AtomicTestAndSet f mo | AtomicStore f _ mo => atomic mo (LocField f)
  end.

Record bthread := mk_bthread {
  bt_thread : thread;
  bt_buf : list plain_store
}.

Definition weak_thread_step (t : bthread) (m : memory)
  : option (bthread * memory * event) :=
  let th := bt_thread t in
  match action_at (t_pc th) (t_tmp th) with
  | None => None
  | Some a =>
      let '(buf', m', v) := weak_perform a (bt_buf t) m in
      let '(p', todo') := resume (next_pc (t_pc th) v) (t_todo th) in
      Some (mk_bthread (mk_thread p' (next_tmp (t_pc th) (t_tmp th) v) todo') buf',
            m', (a, v))
  end.

(** The [k]-th buffered store may be committed when no older store in the
    buffer goes to the same location. *)
Definition may_commit (k : nat) (buf : list plain_store) : bool :=
  match buf !! k with
  | None => false
  | Some e =>
      forallb (fun e' => negb (bool_decide (written e' = written e))) (take k buf)
  end.

Record wsystem := mk_wsys {
  wmem : memory;
  wthreads : list bthread
}.

(** A move: thread [i] executes its next statement, or the [k]-th store
    buffered by thread [i] is committed. *)
Inductive move := Run (i : nat) | Commit (i k : nat).

Definition weak_step (mv : move) (s : wsystem) : option wsystem :=
  match mv with
  | Run i =>
      match wthreads s !! i with
      | None => None
      | Some t =>
          match weak_thread_step t (wmem s) with
          | None => None
          | Some (t', m', _) => Some (mk_wsys m' (<[i := t']> (wthreads s)))
          end
      end
  | Commit i k =>
      match wthreads s !! i with
      | None => None
      | Some t =>
          match bt_buf t !! k with
          | None => None
          | Some e =>
              if may_commit k (bt_buf t)
              then Some (mk_wsys (commit e (wmem s))
                           (<[i := mk_bthread (bt_thread t) (delete k (bt_buf t))]>
                              (wthreads s)))
              else None
          end
      end
  end.

(** As in [exec], a move that cannot be made is skipped. *)
Fixpoint weak_exec (sched : list move) (s : wsystem) : wsystem :=
  match sched with
  | [] => s
  | mv :: rest => weak_exec rest (default s (weak_step mv s))
  end.

(** [main] initialises the lock before it creates the threads, so the
    stores of [simple_lock_init] are in memory when they start. *)
Definition weak_start (l : simple_lock_t) (progs : list (list op)) : wsystem :=
  mk_wsys (mk_mem (simple_lock_init l) 0)
          (map (fun prog => mk_bthread (spawn prog) []) progs).

(** The interleaving seen as an execution of this machine: every store is
    committed right after the statement that made it. *)
Definition unbuffered (s : system) : wsystem :=
  mk_wsys (mem s) (map (fun t => mk_bthread t []) (threads s)).

Definition at_once (sched : list nat) : list move :=
  flat_map (fun i => [Run i; Commit i 0%nat]) sched.

(** Thread 0 executes acquire up to its decrement (lines 33, 38, 44, 46,
    47); its store of line 47 is committed while its store of line 46 is
    still buffered; thread 1 executes the same five statements, taking
    [guard] and reading [flag] from memory; then both execute line 57 and
    return. *)
Definition both_enter : list move :=
  replicate 5 (Run 0%nat) ++ [Commit 0%nat 1%nat] ++ replicate 5 (Run 1%nat)
  ++ [Run 0%nat; Run 1%nat].

(** Both threads read the counter, both write it, both release. *)
Definition both_leave : list move :=
  [Run 0; Run 1; Run 0; Run 1; Run 0; Run 1]%nat.

(** As [both_enter] up to the decrements; then the store of line 46 of
    thread 1 is committed, thread 0 returns, increments the counter and
    releases, and only then thread 1 executes line 57 and returns. *)
Definition release_before_return : list move :=
  replicate 5 (Run 0%nat) ++ [Commit 0%nat 1%nat] ++ replicate 5 (Run 1%nat)
  ++ [Commit 1%nat 0%nat] ++ replicate 4 (Run 0%nat) ++ [Run 1%nat].

(* ------------------------------------------------------------------ *)
(** ** The program: [thread_function] and [main] with their output *)

(** The lines written to standard output, by their [printf]:
    ["Starting threads...\n"], ["Hello from thread #%d\n"],
    ["Thread #%d releasing the lock\n"], ["All threads have completed\n"]. *)
Inductive message :=
| Starting_threads
| Hello_from_thread (id : Z)
| Thread_releasing (id : Z)
| All_threads_completed.

(** [perror("Failed to create thread")], on standard error. *)
Inductive diagnostic := Failed_to_create_thread.

(** [int thread_ids[3] = {1, 2, 3}]. *)
Definition thread_ids : list Z := [1; 2; 3].

(** Control points of [thread_function], by line.  [T74 p] is inside the
    call of [simple_lock_acquire] at line 74, at control point [p] of the
    lock; [T85] is the call of [simple_lock_release]; [T_unborn] is a
    thread that [pthread_create] has not started, [T_done] one that has
    returned. *)
Inductive tf_pc :=
| T_unborn
| T71
| T74 (p : pc)
| T77 | T80 | T82
| T85
| T87
| T_done.

(** A thread running [thread_function]: [w_arg] is the index its argument
    points to in [thread_ids], [thread_id] the local set at line 71. *)
Record worker_t := mk_worker {
  w_pc : tf_pc;
  w_arg : nat;
  thread_id : Z
}.

Definition at_pc (c : tf_pc) (w : worker_t) : worker_t :=
  mk_worker c (w_arg w) (thread_id w).

(** One statement of a lock operation, on the lock alone. *)
Definition lock_call_step (p : pc) (l : simple_lock_t) : option (pc * simple_lock_t) :=
  match step_pc p 0 (in_memory l) with
  | Some (p', _, m', _) => Some (p', lock m')
  | None => None
  end.

(** One statement of [thread_function]. *)
Definition tf_step (w : worker_t) (l : simple_lock_t) (out : list message)
  : option (worker_t * simple_lock_t * list message) :=
  match w_pc w with
  | T_unborn => None
  | T71 => Some (mk_worker (T74 L33) (w_arg w) (nth (w_arg w) thread_ids 0), l, out)
  | T74 p =>
      match lock_call_step p l with
      | Some (Ret, l') => Some (at_pc T77 w, l', out)
      | Some (p', l') => Some (at_pc (T74 p') w, l', out)
      | None => None
      end
  | T77 => Some (at_pc T80 w, l, out ++ [Hello_from_thread (thread_id w)])
  | T80 => Some (at_pc T82 w, l, out)
  | T82 => Some (at_pc T85 w, l, out ++ [Thread_releasing (thread_id w)])
  | T85 => Some (at_pc T87 w, simple_lock_release l, out)
  | T87 => Some (at_pc T_done w, l, out)
  | T_done => None
  end.

(** Control points of [main], by line; [M101 i], [M107 i] and [M112 i]
    carry the loop variable.  [Exited_0] and [Exited_1] are the process
    after [return 0] and [return 1]. *)
Inductive main_pc :=
| M95 | M97
| M101 (i : nat) | M102 | M103 | M107 (i : nat)
| M112 (i : nat)
| M115 | M117
| Exited_0 | Exited_1.

Record process := mk_proc {
  p_lock : simple_lock_t;
  p_stdout : list message;
  p_stderr : list diagnostic;
  p_main : main_pc;
  p_workers : list worker_t
}.

Definition join_loop (i : nat) : main_pc :=
  if (i <? 3)%nat then M112 i else M115.

Definition create_loop (i : nat) : main_pc :=
  if (i <? 3)%nat then M101 i else join_loop 0.

(** One statement of [main].  [create_ok i] tells whether the
    [pthread_create] of iteration [i] succeeds; [pthread_join] can only
    move once the joined thread has returned. *)
Definition main_step (create_ok : nat -> bool) (s : process) : option process :=
  match p_main s with
  | M95 =>
      Some (mk_proc (simple_lock_init (p_lock s)) (p_stdout s) (p_stderr s)
              M97 (p_workers s))
  | M97 =>
      Some (mk_proc (p_lock s) (p_stdout s ++ [Starting_threads]) (p_stderr s)
              (create_loop 0) (p_workers s))
  | M101 i =>
      if create_ok i
      then Some (mk_proc (p_lock s) (p_stdout s) (p_stderr s) (M107 i)
                   (<[i := mk_worker T71 i 0]> (p_workers s)))
      else Some (mk_proc (p_lock s) (p_stdout s) (p_stderr s) M102 (p_workers s))
  | M102 =>
      Some (mk_proc (p_lock s) (p_stdout s)
              (p_stderr s ++ [Failed_to_create_thread]) M103 (p_workers s))
  | M103 =>
      Some (mk_proc (p_lock s) (p_stdout s) (p_stderr s) Exited_1 (p_workers s))
  | M107 i =>
      Some (mk_proc (p_lock s) (p_stdout s) (p_stderr s) (create_loop (S i))
              (p_workers s))
  | M112 i =>
      match p_workers s !! i with
      | Some w =>
          match w_pc w with
          | T_done =>
              Some (mk_proc (p_lock s) (p_stdout s) (p_stderr s)
                      (join_loop (S i)) (p_workers s))
          | _ => None
          end
      | None => None
      end
  | M115 =>
      Some (mk_proc (p_lock s) (p_stdout s ++ [All_threads_completed])
              (p_stderr s) M117 (p_workers s))
  | M117 =>
      Some (mk_proc (p_lock s) (p_stdout s) (p_stderr s) Exited_0 (p_workers s))
  | Exited_0 | Exited_1 => None
  end.

Definition exit_status (s : process) : option Z :=
  match p_main s with
  | Exited_0 => Some 0
  | Exited_1 => Some 1
  | _ => None
  end.

Inductive who := Main | Thread (i : nat).

(** One statement of the process; nothing moves once [main] has
    returned. *)
Definition proc_step (create_ok : nat -> bool) (x : who) (s : process)
  : option process :=
  match exit_status s with
  | Some _ => None
  | None =>
      match x with
      | Main => main_step create_ok s
      | Thread i =>
          match p_workers s !! i with
          | None => None
          | Some w =>
              match tf_step w (p_lock s) (p_stdout s) with
              | None => None
              | Some (w', l', out') =>
                  Some (mk_proc l' out' (p_stderr s) (p_main s)
                          (<[i := w']> (p_workers s)))
              end
          end
      end
  end.

Fixpoint run (create_ok : nat -> bool) (sched : list who) (s : process) : process :=
  match sched with
  | [] => s
  | x :: rest => run create_ok rest (default s (proc_step create_ok x s))
  end.

(** The process at its start: [lock] holds whatever it holds, nothing is
    printed, no thread exists. *)
Definition boot (l : simple_lock_t) : process :=
  mk_proc l [] [] M95 (replicate 3 (mk_worker T_unborn 0 0)).

(** *** Reading the standard output *)

Inductive phase := Ph_before | Ph_closed | Ph_open (id : Z) | Ph_after.

Definition log_step (ph : phase) (m : message) : option phase :=
  match ph, m with
  | Ph_before, Starting_threads => Some Ph_closed
  | Ph_closed, Hello_from_thread id => Some (Ph_open id)
  | Ph_open id, Thread_releasing id' => if id =? id' then Some Ph_closed else None
  | Ph_closed, All_threads_completed => Some Ph_after
  | _, _ => None
  end.

Fixpoint log_parse (ph : phase) (log : list message) : option phase :=
  match log with
  | [] => Some ph
  | m :: rest =>
      match log_step ph m with
      | Some ph' => log_parse ph' rest
      | None => None
      end
  end.

(** The two lines of one critical section. *)
Definition block (id : Z) : list message :=
  [Hello_from_thread id; Thread_releasing id].

Definition is_hello (m : message) : option Z :=
  match m with
  | Hello_from_thread id => Some id
  | _ => None
  end.

Definition hello_ids (log : list message) : list Z := omap is_hello log.

(** *** Counting the threads of the process *)

Definition tf_holds_guard (w : worker_t) : nat :=
  match w_pc w with T74 p => b2n (holds_guard p) | _ => O end.

Definition tf_contending (w : worker_t) : nat :=
  match w_pc w with T74 p => b2n (contending p) | _ => O end.

Definition tf_about_to_own (w : worker_t) : nat :=
  match w_pc w with T74 p => b2n (about_to_own p) | _ => O end.

Definition tf_owns (w : worker_t) : nat :=
  match w_pc w with
  | T74 L47 | T74 L57 | T77 | T80 | T82 | T85 => 1%nat
  | _ => O
  end.

(** Between its two [printf]. *)
Definition tf_inside (w : worker_t) : nat :=
  match w_pc w with T80 | T82 => 1%nat | _ => O end.

Definition tf_inside_other (id : Z) (w : worker_t) : nat :=
  match w_pc w with
  | T80 | T82 => b2n (negb (thread_id w =? id))
  | _ => O
  end.

(** Has printed its first line. *)
Definition tf_past_77 (w : worker_t) : nat :=
  match w_pc w with
  | T80 | T82 | T85 | T87 | T_done => 1%nat
  | _ => O
  end.

Definition main_before (c : main_pc) : bool :=
  match c with M95 | M97 => true | _ => false end.

Definition main_after (c : main_pc) : bool :=
  match c with M117 | Exited_0 => true | _ => false end.

Definition main_failed (c : main_pc) : bool :=
  match c with M102 | M103 | Exited_1 => true | _ => false end.

(** Thread [j] has not been created yet. *)
Definition not_yet_created (c : main_pc) (j : nat) : Prop :=
  match c with
  | M95 | M97 => True
  | M101 i => (i <= j)%nat
  | M107 i => (i < j)%nat
  | _ => False
  end.

(** The creation of thread [j] has been attempted and has succeeded. *)
Definition created (c : main_pc) (j : nat) : Prop :=
  match c with
  | M101 i => (j < i)%nat
  | M107 i => (j <= i)%nat
  | M112 _ | M115 | M117 | Exited_0 => (j < 3)%nat
  | _ => False
  end.

(** Thread [j] has been joined. *)
Definition joined (c : main_pc) (j : nat) : Prop :=
  match c with
  | M112 i => (j < i)%nat
  | M115 | M117 | Exited_0 => True
  | _ => False
  end.

Definition loop_bound (c : main_pc) : Prop :=
  match c with
  | M101 i | M107 i | M112 i => (i < 3)%nat
  | _ => True
  end.

Definition phase_ok (ph : phase) (s : process) : Prop :=
  match ph with
  | Ph_before => main_before (p_main s) = true
  | Ph_after => main_after (p_main s) = true
  | Ph_closed =>
      main_before (p_main s) = false /\ main_after (p_main s) = false
      /\ sum_list_with tf_inside (p_workers s) = O
  | Ph_open id =>
      main_before (p_main s) = false /\ main_after (p_main s) = false
      /\ sum_list_with tf_inside (p_workers s) = 1%nat
      /\ sum_list_with (tf_inside_other id) (p_workers s) = O
  end.

Definition tf_wf (w : worker_t) : Prop :=
  match w_pc w with
  | T74 p => in_acquire p = true
  | _ => True
  end.

(** The lock agrees with where the threads are. *)
Definition lock_counts (l : simple_lock_t) (ws : list worker_t) : Prop :=
  b2n (guard l) = sum_list_with tf_holds_guard ws
  /\ b2n (flag l) = sum_list_with tf_owns ws
  /\ (b2n (flag l) + sum_list_with tf_about_to_own ws <= 1)%nat
  /\ queue l = Z.of_nat (sum_list_with tf_contending ws).

(** The standard output agrees with where [main] and the threads are. *)
Definition log_ok (out : list message) (c : main_pc) (ws : list worker_t) : Prop :=
  exists ph,
    log_parse Ph_before out = Some ph
    /\ phase_ok ph (mk_proc (mk_lock false false 0) out [] c ws).

(** What every reachable state of the process satisfies. *)
Record proc_inv (create_ok : nat -> bool) (s : process) : Prop := {
  pi_length : length (p_workers s) = 3%nat;
  pi_bound : loop_bound (p_main s);
  pi_wf : Forall tf_wf (p_workers s);
  pi_ids : forall j w,
      p_workers s !! j = Some w -> w_pc w <> T_unborn ->
      w_arg w = j /\ (w_pc w <> T71 -> thread_id w = Z.of_nat j + 1);
  pi_unborn : forall j w,
      p_workers s !! j = Some w -> not_yet_created (p_main s) j ->
      w_pc w = T_unborn;
  pi_joined : forall j w,
      p_workers s !! j = Some w -> joined (p_main s) j -> w_pc w = T_done;
  pi_created : forall j, created (p_main s) j -> create_ok j = true;
  pi_failed :
      main_failed (p_main s) = true ->
      exists i, (i < 3)%nat /\ create_ok i = false;
  pi_stderr :
      p_stderr s
      = match p_main s with
        | M103 | Exited_1 => [Failed_to_create_thread]
        | _ => []
        end;
  pi_lock : p_main s <> M95 -> lock_counts (p_lock s) (p_workers s);
  pi_log : log_ok (p_stdout s) (p_main s) (p_workers s);
  pi_hello : forall j w,
      p_workers s !! j = Some w ->
      count_occ Z.eq_dec (hello_ids (p_stdout s)) (Z.of_nat j + 1) = tf_past_77 w;
  pi_hello_range : Forall (fun id => 1 <= id <= 3) (hello_ids (p_stdout s))
}.

(** The first of the three [pthread_create] that fails, if any. *)
Definition first_failure (create_ok : nat -> bool) : option nat :=
  if create_ok 0%nat then
    if create_ok 1%nat then
      if create_ok 2%nat then None else Some 2%nat
    else Some 1%nat
  else Some 0%nat.

(** The schedule in which [main] creates the three threads, each thread
    then runs from its start to its return, and [main] joins them. *)
Definition main_then_threads : list who :=
  replicate 8 Main
  ++ replicate 12 (Thread 0) ++ replicate 12 (Thread 1) ++ replicate 12 (Thread 2)
  ++ replicate 5 Main.

(** *** The program, whatever its threads find in the lock *)

(** [proc_step] lets a thread find in [lock] what the previous statement
    left there.  The plain stores of acquire do not warrant that, so what
    is proved of [proc_step] alone holds of the program only where the
    lock plays no part.  [proc_step_seeing] assumes nothing about the lock:
    the schedule gives, with the thread that moves, the content [seen] this
    thread finds in [lock] at that statement, any value whatever; the lock
    itself is not tracked.  Every execution of the program, under any
    ordering of its stores, is among these, and so is every interleaving
    of [proc_step]. *)
Definition proc_step_seeing (create_ok : nat -> bool)
    (x : who * simple_lock_t) (s : process) : option process :=
  match exit_status s with
  | Some _ => None
  | None =>
      match fst x with
      | Main => main_step create_ok s
      | Thread i =>
          match p_workers s !! i with
          | None => None
          | Some w =>
              match tf_step w (snd x) (p_stdout s) with
              | None => None
              | Some (w', _, out') =>
                  Some (mk_proc (p_lock s) out' (p_stderr s) (p_main s)
                          (<[i := w']> (p_workers s)))
              end
          end
      end
  end.

Fixpoint run_seeing (create_ok : nat -> bool) (sched : list (who * simple_lock_t))
    (s : process) : process :=
  match sched with
  | [] => s
  | x :: rest => run_seeing create_ok rest (default s (proc_step_seeing create_ok x s))
  end.

(** Equality of everything but the lock. *)
Definition same_flow (s s' : process) : Prop :=
  p_stdout s = p_stdout s' /\ p_stderr s = p_stderr s'
  /\ p_main s = p_main s' /\ p_workers s = p_workers s'.

Definition is_releasing (m : message) : option Z :=
  match m with
  | Thread_releasing id => Some id
  | _ => None
  end.

Definition releasing_ids (log : list message) : list Z := omap is_releasing log.

(** Has printed its second line. *)
Definition tf_past_82 (w : worker_t) : nat :=
  match w_pc w with
  | T85 | T87 | T_done => 1%nat
  | _ => O
  end.

(** A line printed by [thread_function]. *)
Definition section_line (m : message) : bool :=
  match m with
  | Hello_from_thread _ | Thread_releasing _ => true
  | _ => false
  end.

(** Every ["releasing"] line comes after the ["Hello"] line of the same
    thread; [seen] holds the numbers whose ["Hello"] has been read. *)
Fixpoint hello_first (seen : list Z) (log : list message) : bool :=
  match log with
  | [] => true
  | Hello_from_thread id :: rest => hello_first (id :: seen) rest
  | Thread_releasing id :: rest => existsb (Z.eqb id) seen && hello_first seen rest
  | _ :: rest => hello_first seen rest
  end.

(** Standard output is empty before line 97, then starts with
    ["Starting threads..."], goes on with lines of the threads only, and
    ends with ["All threads have completed"] once line 115 is executed. *)
Definition framed (c : main_pc) (out : list message) : Prop :=
  if main_before c then out = []
  else exists body,
      forallb section_line body = true
      /\ out = Starting_threads :: body
                 ++ (if main_after c then [All_threads_completed] else []).

(** What every state of the process satisfies, whatever the threads find
    in the lock. *)
Record flow_inv (create_ok : nat -> bool) (s : process) : Prop := {
  fi_length : length (p_workers s) = 3%nat;
  fi_bound : loop_bound (p_main s);
  fi_wf : Forall tf_wf (p_workers s);
  fi_ids : forall j w,
      p_workers s !! j = Some w -> w_pc w <> T_unborn ->
      w_arg w = j /\ (w_pc w <> T71 -> thread_id w = Z.of_nat j + 1);
  fi_unborn : forall j w,
      p_workers s !! j = Some w -> not_yet_created (p_main s) j ->
      w_pc w = T_unborn;
  fi_joined : forall j w,
      p_workers s !! j = Some w -> joined (p_main s) j -> w_pc w = T_done;
  fi_created : forall j, created (p_main s) j -> create_ok j = true;
  fi_stderr :
      p_stderr s
      = match p_main s with
        | M103 | Exited_1 => [Failed_to_create_thread]
        | _ => []
        end;
  fi_frame : framed (p_main s) (p_stdout s);
  fi_hello : forall j w,
      p_workers s !! j = Some w ->
      count_occ Z.eq_dec (hello_ids (p_stdout s)) (Z.of_nat j + 1) = tf_past_77 w;
  fi_releasing : forall j w,
      p_workers s !! j = Some w ->
      count_occ Z.eq_dec (releasing_ids (p_stdout s)) (Z.of_nat j + 1) = tf_past_82 w;
  fi_hello_range : Forall (fun id => 1 <= id <= 3) (hello_ids (p_stdout s));
  fi_releasing_range : Forall (fun id => 1 <= id <= 3) (releasing_ids (p_stdout s));
  fi_order : hello_first [] (p_stdout s) = true
}.

(** The three threads find the lock free at every statement; the
    critical sections of threads 0 and 1, and of threads 1 and 2,
    overlap. *)
Definition overlapping_sections : list (who * simple_lock_t) :=
  let free := mk_lock false false 0 in
  replicate 8 (Main, free)
  ++ replicate 8 (Thread 0, free) ++ replicate 8 (Thread 1, free)
  ++ replicate 4 (Thread 0, free) ++ replicate 12 (Thread 2, free)
  ++ replicate 4 (Thread 1, free)
  ++ replicate 5 (Main, free).

(* ------------------------------------------------------------------ *)
(** ** [pointer_examples.c]: the functions called through pointers *)

Module PointerExamples.

(** A value of type [int]. *)
Definition is_int (z : Z) : Prop := INT_MIN <= z <= INT_MAX.

(** The result of a signed operation: [None] when it does not fit an
    [int], which C leaves undefined. *)
Definition checked (z : Z) : option Z :=
  if (INT_MIN <=? z) && (z <=? INT_MAX) then Some z else None.

(** [int add(int a, int b) { return a + b; }] *)
Definition add (a b : Z) : option Z := checked (a + b).

(** [int subtract(int a, int b) { return a - b; }] *)
Definition subtract (a b : Z) : option Z := checked (a - b).

(** [int multiply(int a, int b) { return a * b; }] *)
Definition multiply (a b : Z) : option Z := checked (a * b).

(** [int divide(int a, int b) { return b != 0 ? a / b : 0; }]; the
    division of C truncates towards zero. *)
Definition divide (a b : Z) : option Z :=
  if b =? 0 then Some 0 else checked (a ÷ b).

(** [int calculate(int ( *operation)(int, int), int a, int b)] *)
Definition calculate (operation : Z -> Z -> option Z) (a b : Z) : option Z :=
  operation a b.

End PointerExamples.

(* ================================================================== *)
(** * Properties *)

(** ** Sequential facts: initialise, release, an uncontended acquire *)

Lemma call_Ret (fuel : nat) (tmp : Z) (m : memory) :
  call fuel Ret tmp m = Some (m, []).
Proof. destruct fuel; reflexivity. Qed.

Lemma call_S (fuel : nat) (p : pc) (tmp : Z) (m : memory) :
  p <> Ret ->
  call (S fuel) p tmp m
  = match step_pc p tmp m with
    | None => Some (m, [])
    | Some (p', tmp', m', ev) =>
        match call fuel p' tmp' m' with
        | None => None
        | Some (m'', tr) => Some (m'', ev :: tr)
        end
    end.
Proof. destruct p; intros H; try reflexivity; congruence. Qed.

Lemma call_O (p : pc) (tmp : Z) (m : memory) :
  p <> Ret -> call O p tmp m = None.
Proof. destruct p; intros H; try reflexivity; congruence. Qed.

Lemma call_more_fuel (n : nat) :
  forall fuel p tmp m r,
    call fuel p tmp m = Some r -> call (fuel + n) p tmp m = Some r.
Proof.
  induction fuel as [|fuel IH]; intros p tmp m r H;
    destruct (decide (p = Ret)) as [->|Hp].
  - rewrite call_Ret in *; exact H.
  - rewrite call_O in H by exact Hp; discriminate.
  - rewrite call_Ret in *; exact H.
  - change (S fuel + n)%nat with (S (fuel + n)).
    rewrite call_S in * by exact Hp.
    destruct (step_pc p tmp m) as [[[[p' tmp'] m'] ev]|]; [|exact H].
    destruct (call fuel p' tmp' m') as [[m'' tr]|] eqn:E; [|discriminate].
    rewrite (IH _ _ _ _ E); exact H.
Qed.

Lemma release_is_line_63 (l : simple_lock_t) :
  release_trace l
  = Some (simple_lock_release l, [(AtomicStore Flag false ATOMIC_RELEASE, VUnit)]).
Proof. reflexivity. Qed.

(** C5: release is the single atomic store of [false] to [flag] with
    release ordering; [guard] and [queue] keep the values they had, for
    every lock state. *)
Theorem release_frame (l : simple_lock_t) :
  release_trace l
  = Some (simple_lock_release l, [(AtomicStore Flag false ATOMIC_RELEASE, VUnit)])
  /\ flag (simple_lock_release l) = false
  /\ guard (simple_lock_release l) = guard l
  /\ queue (simple_lock_release l) = queue l.
Proof. destruct l; repeat split. Qed.

(** C10: release is total and idempotent, also on misuse: released
    twice, or released when [flag] is already false, the lock is as after
    one release, with [guard] and [queue] untouched. *)
Theorem release_idempotent (l : simple_lock_t) :
  (exists tr, release_trace l = Some (simple_lock_release l, tr))
  /\ simple_lock_release (simple_lock_release l) = simple_lock_release l
  /\ (flag l = false -> simple_lock_release l = l)
  /\ simple_lock_release l = mk_lock false (guard l) (queue l).
Proof.
  destruct l as [f g q]; repeat split.
  - eexists; reflexivity.
  - simpl; intros ->; reflexivity.
Qed.

Lemma release_idempotent_witness :
  simple_lock_release (mk_lock false true 4) = mk_lock false true 4.
Proof.
  apply (proj1 (proj2 (proj2 (release_idempotent (mk_lock false true 4))))).
  reflexivity.
Defined.

(** The six events of an acquire that finds the lock free. *)
Lemma acquire_after_init (l : simple_lock_t) (extra : nat) :
  simple_lock_acquire (6 + extra) (simple_lock_init l)
  = Some (mk_lock true false 0,
          [ (AtomicFetchAddQueue 1 ATOMIC_SEQ_CST, VInt 0);
            (AtomicTestAndSet Guard ATOMIC_ACQUIRE, VBool false);
            (PlainRead Flag, VBool false);
            (PlainWrite Flag true, VUnit);
            (PlainWrite Guard false, VUnit);
            (AtomicFetchSubQueue 1 ATOMIC_SEQ_CST, VInt 1) ]).
Proof.
  unfold simple_lock_acquire.
  rewrite (call_more_fuel extra 6 L33 0 (in_memory (simple_lock_init l))
             (mk_mem (mk_lock true false 0) 0, _) eq_refl).
  reflexivity.
Qed.

(** C6: whatever the lock held before, initialise leaves
    [flag = false], [guard = false], [queue = 0]; a second initialise
    changes nothing; and an acquire on the initialised lock returns after
    its six statements, without spinning or sleeping, holding the lock. *)
Theorem init_establishes_free (l : simple_lock_t) :
  simple_lock_init l = mk_lock false false 0
  /\ simple_lock_init (simple_lock_init l) = simple_lock_init l
  /\ forall extra : nat,
      simple_lock_acquire (6 + extra) (simple_lock_init l)
      = Some (mk_lock true false 0,
              [ (AtomicFetchAddQueue 1 ATOMIC_SEQ_CST, VInt 0);
                (AtomicTestAndSet Guard ATOMIC_ACQUIRE, VBool false);
                (PlainRead Flag, VBool false);
                (PlainWrite Flag true, VUnit);
                (PlainWrite Guard false, VUnit);
                (AtomicFetchSubQueue 1 ATOMIC_SEQ_CST, VInt 1) ]).
Proof.
  repeat split. exact (acquire_after_init l).
Qed.

(* ------------------------------------------------------------------ *)
(** ** The events of one call of acquire, under any interference *)

Lemma step_pc_Ret (tmp : Z) (m : memory) : step_pc Ret tmp m = None.
Proof. reflexivity. Qed.

Lemma step_pc_stays_in_acquire p tmp m p' tmp' m' ev :
  in_acquire p = true ->
  step_pc p tmp m = Some (p', tmp', m', ev) ->
  acquire_or_ret p'.
Proof.
  unfold step_pc, acquire_or_ret.
  destruct p; simpl; try discriminate; intros _ H; inversion H; subst; auto;
    destruct (guard (lock m)), (flag (lock m)); simpl; auto.
Qed.

Lemma spec_loop_spin_again ev d body :
  tas_guard true ev -> sleeps 10 d ->
  spec_loop 10 100 body -> spec_loop 10 100 (ev :: d :: body).
Proof.
  intros Hev Hd Hb. inversion Hb as [spin r w c Hs Hr Hw Hc|spin r c s rest Hs Hr Hc Hsl Hrest]; subst.
  - apply (spec_loop_acquired 10 100 (ev :: d :: spin)); auto.
    constructor; auto.
  - apply (spec_loop_retry 10 100 (ev :: d :: spin)); auto.
    constructor; auto.
Qed.

Ltac event_facts :=
  repeat match goal with
    | |- tas_guard _ _ => eexists; reflexivity
    | |- incs_waiters _ => do 2 eexists; reflexivity
    | |- decs_waiters _ => do 2 eexists; reflexivity
    | |- sees_held _ _ => reflexivity
    | |- sleeps _ _ => reflexivity
    | |- stores _ _ _ => left; reflexivity
    end.

(** One statement of acquire prepends its event to what remains. *)
Lemma step_completes p tmp m p' tmp' m' ev k :
  in_acquire p = true ->
  step_pc p tmp m = Some (p', tmp', m', ev) ->
  completes p' k -> completes p (ev :: k).
Proof.
  unfold step_pc. destruct p; simpl; try discriminate; intros _ H.
  - (* line 33 *)
    inversion H; subst; clear H. intros (body & d & -> & Hb & Hd).
    exists (AtomicFetchAddQueue 1 ATOMIC_SEQ_CST, VInt (queue (lock m))), body, d.
    repeat split; auto; event_facts.
  - (* line 38 *)
    destruct (guard (lock m)) eqn:G; inversion H; subst; clear H; simpl.
    + intros (s & body & d & -> & Hs & Hb & Hd).
      eexists (_ :: s :: body), d. repeat split; auto.
      apply spec_loop_spin_again; auto; event_facts.
    + intros [(r & w & c & d & -> & Hr & Hw & Hc & Hd)
             |(r & c & s & body & d & -> & Hr & Hc & Hs & Hb & Hd)].
      * eexists ([_] ++ [r; w; c]), d. repeat split; auto.
        apply spec_loop_acquired; auto. constructor; event_facts.
      * eexists ([_] ++ r :: c :: s :: body), d. repeat split; auto.
        apply spec_loop_retry; auto. constructor; event_facts.
  - (* line 40 *)
    inversion H; subst; clear H. intros (body & d & -> & Hb & Hd).
    eexists _, body, d. repeat split; auto.
  - (* line 44 *)
    destruct (flag (lock m)) eqn:F; inversion H; subst; clear H; simpl.
    + intros (c & s & body & d & -> & Hc & Hs & Hb & Hd).
      right. eexists _, c, s, body, d. repeat split; auto.
    + intros (w & c & d & -> & Hw & Hc & Hd).
      left. eexists _, w, c, d. repeat split; auto.
  - (* line 46 *)
    inversion H; subst; clear H. intros (c & d & -> & Hc & Hd).
    eexists _, c, d. repeat split; auto; event_facts.
  - (* line 47 *)
    inversion H; subst; clear H. intros (d & -> & Hd).
    eexists _, d. repeat split; auto; event_facts.
  - (* line 52 *)
    inversion H; subst; clear H. intros (s & body & d & -> & Hs & Hb & Hd).
    eexists _, s, body, d. repeat split; auto; event_facts.
  - (* line 53 *)
    inversion H; subst; clear H. intros (body & d & -> & Hb & Hd).
    eexists _, body, d. repeat split; auto.
  - (* line 57 *)
    inversion H; subst; clear H. intros ->.
    eexists. split; [reflexivity|event_facts].
Qed.

Lemma run_extends :
  forall env p tmp q tr,
    acquire_or_ret p ->
    thread_run env p tmp = (q, tr) ->
    acquire_or_ret q /\ forall k, completes q k -> completes p (tr ++ k).
Proof.
  induction env as [|m env IH]; intros p tmp q tr Hp H; simpl in H.
  - inversion H; subst. split; auto.
  - destruct Hp as [Hp| ->].
    + destruct (step_pc p tmp m) as [[[[p' tmp'] m'] ev]|] eqn:E.
      * destruct (thread_run env p' tmp') as [q' tr'] eqn:R.
        inversion H; subst; clear H.
        destruct (IH _ _ _ _ (step_pc_stays_in_acquire _ _ _ _ _ _ _ Hp E) R)
          as [Hq Hk].
        split; [exact Hq|]. intros k Hc. simpl.
        eapply step_completes; eauto.
      * inversion H; subst. split; [left; exact Hp|auto].
    + rewrite step_pc_Ret in H. inversion H; subst. split; [right; reflexivity|auto].
Qed.

(** From every control point of acquire the call can be completed. *)
Lemma completes_exists (p : pc) : acquire_or_ret p -> exists k, completes p k.
Proof.
  pose (i := (AtomicFetchAddQueue 1 ATOMIC_SEQ_CST, VInt 0) : event).
  pose (t := (AtomicTestAndSet Guard ATOMIC_ACQUIRE, VBool false) : event).
  pose (r := (PlainRead Flag, VBool false) : event).
  pose (w := (PlainWrite Flag true, VUnit) : event).
  pose (c := (PlainWrite Guard false, VUnit) : event).
  pose (d := (AtomicFetchSubQueue 1 ATOMIC_SEQ_CST, VInt 1) : event).
  assert (Hloop : spec_loop 10 100 ([t] ++ [r; w; c])).
  { apply spec_loop_acquired; [constructor|..]; event_facts. }
  intros [Hp| ->]; [|exists []; reflexivity].
  destruct p; try discriminate; simpl.
  - exists (i :: ([t] ++ [r; w; c]) ++ [d]), i, ([t] ++ [r; w; c]), d.
    repeat split; auto; event_facts.
  - exists (([t] ++ [r; w; c]) ++ [d]), ([t] ++ [r; w; c]), d.
    repeat split; auto; event_facts.
  - exists ((Usleep 10, VUnit) :: ([t] ++ [r; w; c]) ++ [d]),
      (Usleep 10, VUnit), ([t] ++ [r; w; c]), d.
    repeat split; auto; event_facts.
  - exists [r; w; c; d]. left. exists r, w, c, d. repeat split; event_facts.
  - exists [w; c; d], w, c, d. repeat split; event_facts.
  - exists [c; d], c, d. repeat split; event_facts.
  - exists (c :: (Usleep 100, VUnit) :: ([t] ++ [r; w; c]) ++ [d]),
      c, (Usleep 100, VUnit), ([t] ++ [r; w; c]), d.
    repeat split; auto; event_facts.
  - exists ((Usleep 100, VUnit) :: ([t] ++ [r; w; c]) ++ [d]),
      (Usleep 100, VUnit), ([t] ++ [r; w; c]), d.
    repeat split; auto; event_facts.
  - exists [d], d. repeat split; event_facts.
Qed.

Lemma acquire_trace_shape env tmp q tr :
  thread_run env L33 tmp = (q, tr) ->
  (q = Ret -> spec_acquire 10 100 tr)
  /\ exists rest, spec_acquire 10 100 (tr ++ rest).
Proof.
  intros H.
  destruct (run_extends env L33 tmp q tr (or_introl eq_refl) H) as [Hq Hk].
  split.
  - intros ->. specialize (Hk [] eq_refl). rewrite app_nil_r in Hk. exact Hk.
  - destruct (completes_exists q Hq) as [k Hc]. exists k. exact (Hk k Hc).
Qed.

Lemma spec_spin_no_queue spin :
  spec_spin 10 spin -> forallb (fun ev => negb (touches_queue ev)) spin = true.
Proof.
  induction 1 as [ev [mo ->]|ev d tr [mo ->] -> _ IH]; simpl; auto.
Qed.

Lemma spec_loop_no_queue body :
  spec_loop 10 100 body ->
  forallb (fun ev => negb (touches_queue ev)) body = true.
Proof.
  induction 1 as [spin r w c Hs -> Hw Hc|spin r c d rest Hs -> Hc -> _ IH];
    rewrite forallb_app, (spec_spin_no_queue _ Hs); simpl.
  - destruct Hw as [->|[mo ->]], Hc as [->|[mo' ->]]; reflexivity.
  - destruct Hc as [->|[mo' ->]]; simpl; exact IH.
Qed.

(** The loop is left through the store of [true] to [flag] and the
    clearing of [guard]. *)
Lemma spec_loop_ends body :
  spec_loop 10 100 body ->
  exists pre r w c,
    body = pre ++ [r; w; c]
    /\ sees_held false r /\ stores Flag true w /\ stores Guard false c.
Proof.
  induction 1 as [spin r w c Hs Hr Hw Hc
                 |spin r c d rest Hs Hr Hc Hd _ (pre & r' & w' & c' & -> & IH)].
  - exists spin, r, w, c. auto.
  - exists (spin ++ r :: c :: d :: pre), r', w', c'. split; [|exact IH].
    rewrite <- app_assoc. reflexivity.
Qed.




(* ------------------------------------------------------------------ *)
(** ** Interleavings: counting lemmas and the induction principle *)

Section Totals.
Variable w : thread -> nat.

Lemma total_cons (t : thread) (ts : list thread) :
  total w (t :: ts) = (w t + total w ts)%nat.
Proof. reflexivity. Qed.

Lemma total_lookup (ts : list thread) (i : nat) (t : thread) :
  ts !! i = Some t -> total w ts = (w t + total w (delete i ts))%nat.
Proof.
  revert i. induction ts as [|a ts IH]; intros [|i] H; simpl in *;
    try discriminate.
  - inversion H; subst; reflexivity.
  - rewrite (IH i H). lia.
Qed.

Lemma total_insert (ts : list thread) (i : nat) (t t' : thread) :
  ts !! i = Some t ->
  total w (<[i := t']> ts) = (w t' + total w (delete i ts))%nat.
Proof.
  revert i. induction ts as [|a ts IH]; intros [|i] H; simpl in *;
    try discriminate.
  - reflexivity.
  - rewrite (IH i H). lia.
Qed.

Lemma total_le (w' : thread -> nat) (ts : list thread) :
  (forall t, (w t <= w' t)%nat) -> (total w ts <= total w' ts)%nat.
Proof.
  intros H. induction ts as [|a ts IH]; simpl; [lia|].
  specialize (H a). lia.
Qed.

Lemma total_zero (ts : list thread) :
  Forall (fun t => w t = O) ts -> total w ts = O.
Proof. induction 1 as [|a ts Ha _ IH]; simpl; [reflexivity|lia]. Qed.
End Totals.

Lemma count_le_length (P : pc -> bool) (ts : list thread) :
  (count P ts <= length ts)%nat.
Proof.
  unfold count. induction ts as [|a ts IH]; simpl; [lia|].
  destruct (P (t_pc a)); simpl; lia.
Qed.

Lemma count_member (P : pc -> bool) (ts : list thread) (i : nat) (t : thread) :
  ts !! i = Some t -> P (t_pc t) = true -> (1 <= count P ts)%nat.
Proof.
  intros H HP. unfold count. rewrite (total_lookup _ _ _ _ H), HP. simpl. lia.
Qed.

Lemma sys_step_inv (i : nat) (s s' : system) :
  sys_step i s = Some s' ->
  exists t p' tmp' m' ev,
    threads s !! i = Some t
    /\ step_pc (t_pc t) (t_tmp t) (mem s) = Some (p', tmp', m', ev)
    /\ s' = mk_sys m' (<[i := mk_thread (fst (resume p' (t_todo t))) tmp'
                                        (snd (resume p' (t_todo t)))]> (threads s)).
Proof.
  unfold sys_step, thread_step. intros H.
  destruct (threads s !! i) as [t|] eqn:Hlk; [|discriminate].
  destruct (step_pc (t_pc t) (t_tmp t) (mem s)) as [[[[p' tmp'] m'] ev]|] eqn:E;
    [|discriminate].
  destruct (resume p' (t_todo t)) as [p'' todo'] eqn:R.
  inversion H; subst. exists t, p', tmp', m', ev. rewrite R. auto.
Qed.

Lemma exec_invariant (P : system -> Prop) :
  (forall i s s', P s -> sys_step i s = Some s' -> P s') ->
  forall sched s, P s -> P (exec sched s).
Proof.
  intros Hstep. induction sched as [|i sched IH]; intros s Hs; simpl; [exact Hs|].
  apply IH. destruct (sys_step i s) as [s'|] eqn:E; simpl; eauto.
Qed.

Lemma exec_app (a b : list nat) (s : system) :
  exec (a ++ b) s = exec b (exec a s).
Proof. revert s. induction a as [|i a IH]; intros s; simpl; auto. Qed.

Lemma sys_step_length (i : nat) (s s' : system) :
  sys_step i s = Some s' -> length (threads s') = length (threads s).
Proof.
  intros H. destruct (sys_step_inv _ _ _ H) as (t & p' & tmp' & m' & ev & _ & _ & ->).
  simpl. apply length_insert.
Qed.

Lemma exec_length (sched : list nat) (s : system) :
  length (threads (exec sched s)) = length (threads s).
Proof.
  apply (exec_invariant (fun s' => length (threads s') = length (threads s)));
    [|reflexivity].
  intros i s1 s2 H1 H2. rewrite (sys_step_length _ _ _ H2). exact H1.
Qed.

Lemma wrap_int_small (z : Z) : INT_MIN <= z <= INT_MAX -> wrap_int z = z.
Proof.
  unfold wrap_int, INT_MIN, INT_MAX. intros H.
  rewrite Z.mod_small; lia.
Qed.

(** The control point a freshly created thread starts at. *)
Lemma spawn_pc (prog : list op) :
  t_pc (spawn prog) = L33 \/ t_pc (spawn prog) = CS_read
  \/ t_pc (spawn prog) = L63 \/ t_pc (spawn prog) = Ret.
Proof. destruct prog as [|[] rest]; simpl; auto. Qed.

Lemma count_spawn_zero (P : pc -> bool) (progs : list (list op)) :
  P L33 = false -> P CS_read = false -> P L63 = false -> P Ret = false ->
  count P (map spawn progs) = O.
Proof.
  intros H1 H2 H3 H4. unfold count. apply total_zero.
  apply Forall_forall. intros t Ht.
  apply list_elem_of_fmap in Ht as (prog & -> & _).
  destruct (spawn_pc prog) as [-> | [-> | [-> | ->]]];
    rewrite ?H1, ?H2, ?H3, ?H4; reflexivity.
Qed.

(** Splits every sum over the threads into the moving thread and the
    others, before and after its step. *)
Ltac split_totals Hlk :=
  unfold count in *;
  repeat match goal with
    | |- context [total ?w (<[_ := _]> _)] =>
        rewrite (total_insert w _ _ _ _ Hlk)
    | H : context [total ?w (<[_ := _]> _)] |- _ =>
        rewrite (total_insert w _ _ _ _ Hlk) in H
    end;
  repeat match goal with
    | H : context [total ?w ?ts] |- _ =>
        lazymatch ts with
        | delete _ _ => fail
        | _ => rewrite (total_lookup w _ _ _ Hlk) in H
        end
    | |- context [total ?w ?ts] =>
        lazymatch ts with
        | delete _ _ => fail
        | _ => rewrite (total_lookup w _ _ _ Hlk)
        end
    end.

(** [guard] invariant, for threads running any programs. *)
Lemma inv_guard_step (i : nat) (s s' : system) :
  inv_guard s -> sys_step i s = Some s' -> inv_guard s'.
Proof.
  unfold inv_guard. intros Hinv Hstep.
  destruct (sys_step_inv _ _ _ Hstep) as (t & p' & tmp' & m' & ev & Hlk & E & ->).
  destruct s as [[l c] ts], t as [p tmp todo]; simpl in *.
  unfold step_pc in E.
  destruct p; simpl in E; inversion E; subst; clear E; simpl;
    split_totals Hlk; simpl in *;
    try (destruct (guard l); simpl in *; lia);
    try (destruct (flag l); simpl in *; lia);
    try (destruct todo as [|[] rest]; simpl; lia).
Qed.

Lemma inv_guard_start (l : simple_lock_t) (progs : list (list op)) :
  inv_guard (start l progs).
Proof.
  unfold inv_guard; simpl. rewrite count_spawn_zero; reflexivity.
Qed.

Lemma inv_guard_exec l progs sched : inv_guard (exec sched (start l progs)).
Proof.
  apply exec_invariant; [|apply inv_guard_start].
  intros i s s'. apply inv_guard_step.
Qed.

(** [queue] invariant, for threads running any programs. *)
Lemma inv_queue_step (i : nat) (s s' : system) :
  Z.of_nat (length (threads s)) <= INT_MAX ->
  inv_queue s -> sys_step i s = Some s' -> inv_queue s'.
Proof.
  unfold inv_queue. intros Hlen Hinv Hstep.
  pose proof (count_le_length contending (threads s')) as Hle.
  rewrite (sys_step_length _ _ _ Hstep) in Hle.
  destruct (sys_step_inv _ _ _ Hstep) as (t & p' & tmp' & m' & ev & Hlk & E & ->).
  destruct s as [[l c] ts], t as [p tmp todo]; simpl in *.
  unfold step_pc in E.
  assert (Hmin : INT_MIN <= 0) by (unfold INT_MIN; lia).
  destruct p; simpl in E; inversion E; subst; clear E; simpl in *;
    split_totals Hlk; simpl in *;
    try rewrite Hinv;
    try (rewrite wrap_int_small by lia);
    try (destruct (guard l); simpl in *; lia);
    try (destruct (flag l); simpl in *; lia);
    try (destruct todo as [|[] rest]; simpl in *;
         try (rewrite wrap_int_small by lia); lia).
Qed.

Lemma inv_queue_exec l progs sched :
  Z.of_nat (length progs) <= INT_MAX ->
  inv_queue (exec sched (start l progs)).
Proof.
  intros Hlen.
  assert (H : inv_queue (exec sched (start l progs))
              /\ length (threads (exec sched (start l progs))) = length progs).
  { split; [|rewrite exec_length; simpl; apply length_map].
    apply (exec_invariant
             (fun s => inv_queue s /\ length (threads s) = length progs)).
    - intros i s s' [Hq Hl] Hs. split.
      + apply (inv_queue_step i s s'); auto. rewrite Hl. exact Hlen.
      + rewrite (sys_step_length _ _ _ Hs). exact Hl.
    - split; [|simpl; apply length_map].
      unfold inv_queue; simpl. rewrite count_spawn_zero; reflexivity. }
  exact (proj1 H).
Qed.

(** C8: a call of acquire that returns has performed exactly two
    operations on [queue]: the atomic increment as its first event and the
    atomic decrement as its last, the decrement coming after the store of
    [true] to [flag] and the clearing of [guard].  Hence, from an
    initialised lock and with threads that only call acquire and release
    (in any order and number; at most [INT_MAX] threads, [queue] being an
    [int]), [queue] is never negative and is at every instant the number
    of threads between their increment and their decrement. *)
Theorem waiters_counts_contenders :
  (forall env tmp tr,
      thread_run env L33 tmp = (Ret, tr) ->
      exists i pre r w c d,
        tr = i :: (pre ++ [r; w; c]) ++ [d]
        /\ incs_waiters i /\ decs_waiters d
        /\ stores Flag true w /\ stores Guard false c
        /\ forallb (fun ev => negb (touches_queue ev)) (pre ++ [r; w; c]) = true)
  /\ (forall l progs sched,
        Z.of_nat (length progs) <= INT_MAX ->
        let s := exec sched (start l progs) in
        0 <= queue (lock (mem s))
        /\ queue (lock (mem s)) = Z.of_nat (count contending (threads s))).
Proof.
  split.
  - intros env tmp tr H.
    destruct (proj1 (acquire_trace_shape env tmp Ret tr H) eq_refl)
      as (i & body & d & -> & Hi & Hb & Hd).
    destruct (spec_loop_ends body Hb) as (pre & r & w & c & -> & Hr & Hw & Hc).
    exists i, pre, r, w, c, d. repeat split; auto.
    apply spec_loop_no_queue. exact Hb.
  - intros l progs sched Hlen s.
    pose proof (inv_queue_exec l progs sched Hlen) as Hq.
    unfold inv_queue in Hq. fold s in Hq. split; [lia|exact Hq].
Qed.

Lemma waiters_counts_contenders_witness :
  (exists i pre r w c d,
      snd (thread_run busy_then_free L33 0) = i :: (pre ++ [r; w; c]) ++ [d]
      /\ incs_waiters i /\ decs_waiters d
      /\ stores Flag true w /\ stores Guard false c
      /\ forallb (fun ev => negb (touches_queue ev)) (pre ++ [r; w; c]) = true)
  /\ (let s := exec [0; 1; 1; 2; 0; 0; 1]%nat
                 (start (mk_lock true true 7)
                    [[OpAcquire; OpRelease]; [OpAcquire]; [OpRelease; OpAcquire]]) in
      0 <= queue (lock (mem s))
      /\ queue (lock (mem s)) = Z.of_nat (count contending (threads s))).
Proof.
  split.
  - apply (proj1 waiters_counts_contenders busy_then_free 0). reflexivity.
  - apply (proj2 waiters_counts_contenders (mk_lock true true 7)
             [[OpAcquire; OpRelease]; [OpAcquire]; [OpRelease; OpAcquire]]
             [0; 1; 1; 2; 0; 0; 1]%nat).
    vm_compute. discriminate.
Defined.

(* ------------------------------------------------------------------ *)
(** ** Who holds [guard] *)

Lemma call_acquire_post :
  forall fuel p tmp m m' tr,
    in_acquire p = true -> acquire_pre p m ->
    call fuel p tmp m = Some (m', tr) ->
    flag (lock m') = true /\ guard (lock m') = false.
Proof.
  induction fuel as [|fuel IH]; intros p tmp m m' tr Hp Hpre H.
  - rewrite call_O in H by (intros ->; discriminate). discriminate.
  - rewrite call_S in H by (intros ->; discriminate).
    destruct (step_pc p tmp m) as [[[[p' tmp'] m1] ev]|] eqn:E;
      [|destruct p; discriminate].
    destruct (call fuel p' tmp' m1) as [[m2 tr2]|] eqn:C; [|discriminate].
    inversion H; subst; clear H.
    unfold step_pc in E.
    destruct p; try discriminate; simpl in E; inversion E; subst; clear E;
      simpl in Hpre;
      try solve [eapply IH; [| |exact C]; [reflexivity|simpl; auto]].
    + destruct (guard (lock m));
        (eapply IH; [| |exact C]; [reflexivity|simpl; auto]).
    + destruct (flag (lock m));
        (eapply IH; [| |exact C]; [reflexivity|simpl; auto]).
    + rewrite call_Ret in C. inversion C; subst. simpl. exact Hpre.
Qed.

Lemma acquire_alone_post fuel l l' tr :
  simple_lock_acquire fuel l = Some (l', tr) ->
  flag l' = true /\ guard l' = false.
Proof.
  unfold simple_lock_acquire. intros H.
  destruct (call fuel L33 0 (in_memory l)) as [[m tr']|] eqn:C; [|discriminate].
  inversion H; subst.
  exact (call_acquire_post fuel L33 0 (in_memory l) m tr eq_refl I C).
Qed.

(** Every statement of acquire changes the shared memory as the
    specification says of its event. *)
Lemma step_effect p tmp m p' tmp' m' ev :
  in_acquire p = true ->
  step_pc p tmp m = Some (p', tmp', m', ev) ->
  effect_as_specified ev m m'.
Proof.
  unfold step_pc, effect_as_specified, tas_guard, sees_held, stores, sleeps,
    incs_waiters, decs_waiters.
  destruct m as [[f g q] c].
  destruct p; simpl; try discriminate; intros _ H; inversion H; subst; clear H;
    simpl; repeat split;
    try (intros; repeat match goal with
                   | H : _ \/ _ |- _ => destruct H
                   | H : ex _ |- _ => destruct H
                   end; congruence).
Qed.

(** C2: under any interference, the events of a call of acquire are
    those of the algorithm: after the increment, a loop whose every
    iteration spins (test-and-set of [guard], 10 microseconds between
    attempts) until a test-and-set finds [guard] false and sets it, then
    reads [flag]; found false, it stores [true] to [flag], clears [guard]
    and leaves the loop; found true, it clears [guard], sleeps 100
    microseconds and retries from the test-and-set.  A call that has
    returned has exactly such a trace, and the trace of a call still
    running is the beginning of one.  Each of these events has on the
    memory it is performed on the effect the algorithm names: the
    test-and-set returns the old [guard] and leaves [guard] true, the read
    returns [flag], the two stores leave [flag] true and [guard] false, each
    touching no other field; and a call running alone that returns leaves
    [flag] true and [guard] false. *)
Theorem acquire_follows_algorithm :
  (forall env tmp q tr,
      thread_run env L33 tmp = (q, tr) ->
      (q = Ret -> spec_acquire 10 100 tr)
      /\ exists rest, spec_acquire 10 100 (tr ++ rest))
  /\ (forall p tmp m p' tmp' m' ev,
        in_acquire p = true ->
        step_pc p tmp m = Some (p', tmp', m', ev) ->
        effect_as_specified ev m m')
  /\ (forall fuel l l' tr,
        simple_lock_acquire fuel l = Some (l', tr) ->
        flag l' = true /\ guard l' = false).
Proof.
  split; [exact acquire_trace_shape|].
  split; [exact step_effect|exact acquire_alone_post].
Qed.

Lemma acquire_follows_algorithm_witness :
  spec_acquire 10 100 (snd (thread_run busy_then_free L33 0))
  /\ effect_as_specified
       (AtomicTestAndSet Guard ATOMIC_ACQUIRE, VBool false)
       (mk_mem (mk_lock false false 1) 0) (mk_mem (mk_lock false true 1) 0)
  /\ flag (mk_lock true false 0) = true /\ guard (mk_lock true false 0) = false.
Proof.
  split; [|split].
  - apply (proj1 (proj1 acquire_follows_algorithm busy_then_free 0 Ret
                    (snd (thread_run busy_then_free L33 0)) eq_refl)).
    reflexivity.
  - apply (proj1 (proj2 acquire_follows_algorithm) L38 0
             (mk_mem (mk_lock false false 1) 0) L44 0); reflexivity.
  - apply (proj2 (proj2 acquire_follows_algorithm) 6%nat (mk_lock false false 0)
             (mk_lock true false 0)
             (snd (default (mk_lock false false 0, [])
                     (simple_lock_acquire 6 (mk_lock false false 0))))).
    reflexivity.
Defined.




(* ------------------------------------------------------------------ *)
(** ** [queue] decides nothing *)

Lemma step_pc_same p tmp m1 m2 :
  same_but_queue m1 m2 ->
  match step_pc p tmp m1, step_pc p tmp m2 with
  | Some (p1, tmp1, m1', e1), Some (p2, tmp2, m2', e2) =>
      p1 = p2 /\ tmp1 = tmp2 /\ same_but_queue m1' m2'
      /\ fst e1 = fst e2 /\ (touches_queue e1 = false -> e1 = e2)
  | None, None => True
  | _, _ => False
  end.
Proof.
  destruct m1 as [[f1 g1 q1] c1], m2 as [[f2 g2 q2] c2].
  unfold same_but_queue; simpl. intros (-> & -> & ->).
  destruct p; simpl; auto; repeat split; auto; discriminate.
Qed.

Lemma thread_step_same t m1 m2 :
  same_but_queue m1 m2 ->
  match thread_step t m1, thread_step t m2 with
  | Some (t1, m1', e1), Some (t2, m2', e2) =>
      t1 = t2 /\ same_but_queue m1' m2'
      /\ fst e1 = fst e2 /\ (touches_queue e1 = false -> e1 = e2)
  | None, None => True
  | _, _ => False
  end.
Proof.
  intros H. unfold thread_step.
  pose proof (step_pc_same (t_pc t) (t_tmp t) m1 m2 H) as S.
  destruct (step_pc (t_pc t) (t_tmp t) m1) as [[[[p1 tmp1] m1'] e1]|],
           (step_pc (t_pc t) (t_tmp t) m2) as [[[[p2 tmp2] m2'] e2]|];
    try (destruct S; fail); [|exact I].
  destruct S as (-> & -> & Hm & He1 & He2).
  destruct (resume p2 (t_todo t)) as [p'' todo'].
  split; [reflexivity|]. split; [exact Hm|]. split; assumption.
Qed.

Lemma sys_step_same i s1 s2 :
  sys_same_but_queue s1 s2 ->
  sys_same_but_queue (default s1 (sys_step i s1)) (default s2 (sys_step i s2)).
Proof.
  intros [Ht Hm]. unfold sys_step. rewrite <- Ht.
  destruct (threads s1 !! i) as [t|]; simpl; [|split; auto].
  pose proof (thread_step_same t (mem s1) (mem s2) Hm) as S.
  destruct (thread_step t (mem s1)) as [[[t1 m1'] e1]|],
           (thread_step t (mem s2)) as [[[t2 m2'] e2]|];
    simpl; try (exfalso; exact S); [|split; auto].
  destruct S as (-> & Hm' & _). split; simpl; [rewrite Ht; reflexivity|exact Hm'].
Qed.

(** C9: no operation lets [queue] decide anything.  In two memories that
    differ only in [queue], a thread's next statement is the same action,
    leads to the same control point and leaves [flag], [guard] (and the
    counter) equal again; the values it reads are equal too, except the
    old [queue] returned by the fetch-and-add and fetch-and-sub, which
    the code discards.  So, under every schedule, threads calling acquire
    and release follow the same path and make the same updates to [flag]
    and [guard]. *)
Theorem waiters_never_gates :
  (forall t m1 m2,
      same_but_queue m1 m2 ->
      match thread_step t m1, thread_step t m2 with
      | Some (t1, m1', e1), Some (t2, m2', e2) =>
          t1 = t2 /\ same_but_queue m1' m2'
          /\ fst e1 = fst e2 /\ (touches_queue e1 = false -> e1 = e2)
      | None, None => True
      | _, _ => False
      end)
  /\ (forall sched s1 s2,
        sys_same_but_queue s1 s2 ->
        sys_same_but_queue (exec sched s1) (exec sched s2))
  /\ (forall l1 l2,
        flag l1 = flag l2 -> guard l1 = guard l2 ->
        flag (simple_lock_release l1) = flag (simple_lock_release l2)
        /\ guard (simple_lock_release l1) = guard (simple_lock_release l2)).
Proof.
  split; [exact thread_step_same|]. split.
  - induction sched as [|i sched IH]; intros s1 s2 H; simpl; [exact H|].
    apply IH. apply sys_step_same. exact H.
  - intros [f1 g1 q1] [f2 g2 q2]; simpl. auto.
Qed.

Lemma waiters_never_gates_witness :
  match thread_step (spawn [OpAcquire]) (mk_mem (mk_lock false false 0) 0),
        thread_step (spawn [OpAcquire]) (mk_mem (mk_lock false false 41) 0) with
  | Some (t1, m1', e1), Some (t2, m2', e2) =>
      t1 = t2 /\ same_but_queue m1' m2'
      /\ fst e1 = fst e2 /\ (touches_queue e1 = false -> e1 = e2)
  | None, None => True
  | _, _ => False
  end
  /\ sys_same_but_queue
       (exec [0; 1; 0; 0; 1; 0; 0; 0; 1]%nat
          (mk_sys (mk_mem (mk_lock false false 0) 0)
             (map spawn [[OpAcquire; OpRelease]; [OpAcquire]])))
       (exec [0; 1; 0; 0; 1; 0; 0; 0; 1]%nat
          (mk_sys (mk_mem (mk_lock false false (-5)) 0)
             (map spawn [[OpAcquire; OpRelease]; [OpAcquire]])))
  /\ (flag (simple_lock_release (mk_lock true false 3))
      = flag (simple_lock_release (mk_lock true false 9))
      /\ guard (simple_lock_release (mk_lock true false 3))
         = guard (simple_lock_release (mk_lock true false 9))).
Proof.
  split; [|split].
  - apply (proj1 waiters_never_gates (spawn [OpAcquire])
             (mk_mem (mk_lock false false 0) 0)
             (mk_mem (mk_lock false false 41) 0)).
    repeat split.
  - apply (proj1 (proj2 waiters_never_gates)). repeat split.
  - apply (proj2 (proj2 waiters_never_gates)); reflexivity.
Defined.

(* ------------------------------------------------------------------ *)
(** ** Mutual exclusion for threads that pair acquire with release *)

Lemma about_to_own_le_holds_guard (ts : list thread) :
  (total (fun t => b2n (about_to_own (t_pc t))) ts
   <= total (fun t => b2n (holds_guard (t_pc t))) ts)%nat.
Proof. apply total_le. intros [[] tmp todo]; simpl; lia. Qed.

Lemma stale_le_owns_flag (c : Z) (ts : list thread) :
  (total (stale c) ts <= total (fun t => b2n (owns_flag (t_pc t))) ts)%nat.
Proof.
  apply total_le. intros [[] tmp todo]; unfold stale; simpl; try lia.
  destruct (negb (tmp =? c)); simpl; lia.
Qed.

Lemma in_critical_le_owns_flag (ts : list thread) :
  (count in_critical ts <= count owns_flag ts)%nat.
Proof. apply total_le. intros [[] tmp todo]; simpl; lia. Qed.

Lemma after_acquire_le_owns_flag (ts : list thread) :
  (count after_acquire ts <= count owns_flag ts)%nat.
Proof. apply total_le. intros [[] tmp todo]; simpl; lia. Qed.

Lemma stale_zero (c tmp : Z) : b2n (negb (tmp =? c)) = O -> tmp = c.
Proof.
  destruct (tmp =? c) eqn:E; simpl; [intros _; apply Z.eqb_eq; exact E|discriminate].
Qed.

Lemma inv_worker_step (n i : nat) (s s' : system) :
  inv_worker n s -> sys_step i s = Some s' -> inv_worker n s'.
Proof.
  intros (Hshape & Hg & Hf & Ha & Hst & Hk) Hstep.
  pose proof (inv_guard_step i s s' Hg Hstep) as Hg'.
  split; [|split; [exact Hg'|]]; clear Hg'.
  - (* shapes *)
    destruct (sys_step_inv _ _ _ Hstep) as (t & p' & tmp' & m' & ev & Hlk & E & ->).
    simpl. apply Forall_insert; [exact Hshape|].
    pose proof (proj1 (Forall_lookup _ _) Hshape i t Hlk) as [k Hsh].
    destruct t as [p tmp todo]; simpl in *. unfold step_pc in E.
    destruct p; simpl in E; inversion E; subst; clear E; simpl;
      try (exists k; reflexivity);
      try (destruct (guard (lock (mem s))); exists k; reflexivity);
      try (destruct (flag (lock (mem s))); exists k; reflexivity).
    destruct k as [|k]; simpl; [exists O|exists k]; reflexivity.
  - (* counts *)
    destruct (sys_step_inv _ _ _ Hstep) as (t & p' & tmp' & m' & ev & Hlk & E & ->).
    pose proof (proj1 (Forall_lookup _ _) Hshape i t Hlk) as [k Hsh].
    pose proof (about_to_own_le_holds_guard (delete i (threads s))) as R1.
    unfold inv_guard in Hg.
    destruct s as [[l c] ts], t as [p tmp todo]; simpl in *.
    pose proof (stale_le_owns_flag c (delete i ts)) as R2.
    pose proof (stale_le_owns_flag (tmp + 1) (delete i ts)) as R3.
    unfold step_pc in E.
    destruct p; simpl in E; inversion E; subst; clear E Hstep; simpl in *;
      split_totals Hlk; unfold stale, pending in *; simpl in *;
      rewrite ?Z.eqb_refl;
      try match goal with
        | |- context [match worker ?j with _ => _ end] => destruct j; simpl in *
        end;
      try match goal with
        | H : context [(?a =? ?b)] |- _ =>
            destruct (a =? b) eqn:Eq; [apply Z.eqb_eq in Eq; subst|]
        end;
      destruct (guard l), (flag l); simpl in *; lia.
Qed.

Lemma incrs_worker (k : nat) : incrs (worker k) = k.
Proof. induction k as [|k IH]; simpl; [reflexivity|rewrite IH; reflexivity]. Qed.

Lemma spawn_worker (k : nat) :
  spawn (worker k)
  = match k with
    | O => mk_thread Ret 0 []
    | S k' => mk_thread L33 0 (OpIncr :: OpRelease :: worker k')
    end.
Proof. destruct k; reflexivity. Qed.

Lemma total_spawn_worker_zero (w : thread -> nat) (rounds : list nat) :
  (forall k, w (spawn (worker k)) = O) ->
  total w (map spawn (map worker rounds)) = O.
Proof.
  intros H. induction rounds as [|k rounds IH]; [reflexivity|].
  simpl map. rewrite total_cons, IH, H. reflexivity.
Qed.

Lemma total_pending_start (rounds : list nat) :
  total pending (map spawn (map worker rounds)) = sum_list rounds.
Proof.
  induction rounds as [|k rounds IH]; [reflexivity|].
  simpl map. rewrite total_cons, IH, spawn_worker. unfold pending.
  destruct k as [|k]; simpl; [reflexivity|]. rewrite incrs_worker. reflexivity.
Qed.

Lemma inv_worker_start (l : simple_lock_t) (rounds : list nat) :
  inv_worker (sum_list rounds) (start l (map worker rounds)).
Proof.
  unfold inv_worker.
  split; [|split; [apply inv_guard_start|]]; unfold start, count;
    cbn [mem threads lock counter simple_lock_init set_queue set_guard set_flag
         flag guard].
  - apply Forall_forall. intros t Ht.
    apply list_elem_of_fmap in Ht as (prog & -> & Hp).
    apply list_elem_of_fmap in Hp as (k & -> & _).
    rewrite spawn_worker. destruct k as [|k]; [exists O|exists k]; reflexivity.
  - rewrite total_pending_start, !total_spawn_worker_zero;
      try (intros k; rewrite spawn_worker; destruct k; reflexivity).
    simpl. repeat split; lia.
Qed.

Lemma inv_worker_exec l rounds sched :
  inv_worker (sum_list rounds) (exec sched (start l (map worker rounds))).
Proof.
  apply exec_invariant; [|apply inv_worker_start].
  intros i s s'. apply inv_worker_step.
Qed.

Lemma all_finished_pending (ts : list thread) :
  forallb finished ts = true -> total pending ts = O.
Proof.
  induction ts as [|[p tmp todo] ts IH]; simpl; [reflexivity|].
  intros H. apply andb_prop in H as [H1 H2]. rewrite (IH H2).
  unfold finished in H1; simpl in H1.
  destruct p; try discriminate. destruct todo; [reflexivity|discriminate].
Qed.

Lemma owner_count (n : nat) (s : system) :
  inv_worker n s -> (count owns_flag (threads s) <= 1)%nat.
Proof.
  intros (_ & _ & Hf & _). rewrite <- Hf. destruct (flag (lock (mem s))); simpl; lia.
Qed.

(** *** Some schedule lets every thread finish *)

Lemma thread_iter_add (a b : nat) :
  forall t m,
    thread_iter (a + b) t m
    = match thread_iter a t m with
      | Some (t', m') => thread_iter b t' m'
      | None => None
      end.
Proof.
  induction a as [|a IH]; intros t m; simpl; [reflexivity|].
  destruct (thread_step t m) as [[[t' m'] ev]|]; [apply IH|reflexivity].
Qed.

Lemma exec_thread_alone (i : nat) :
  forall n t m ts t' m',
    ts !! i = Some t ->
    thread_iter n t m = Some (t', m') ->
    exec (replicate n i) (mk_sys m ts) = mk_sys m' (<[i := t']> ts).
Proof.
  induction n as [|n IH]; intros t m ts t' m' Hlk H; simpl in H |- *.
  - inversion H; subst. rewrite list_insert_id by exact Hlk. reflexivity.
  - destruct (thread_step t m) as [[[t1 m1] ev]|] eqn:E; [|discriminate].
    unfold sys_step at 1; simpl. rewrite Hlk, E; simpl.
    rewrite (IH t1 m1 (<[i := t1]> ts) t' m').
    + rewrite list_insert_insert_eq. reflexivity.
    + apply list_lookup_insert_eq. eapply lookup_lt_Some; exact Hlk.
    + exact H.
Qed.

Lemma one_round_alone (tmp c : Z) (k : nat) :
  thread_iter 9 (idle_worker tmp (S k)) (mk_mem (mk_lock false false 0) c)
  = Some (idle_worker c k, mk_mem (mk_lock false false 0) (c + 1)).
Proof. destruct k; reflexivity. Qed.

Lemma all_rounds_alone (k : nat) :
  forall tmp c,
    exists tmp',
      thread_iter (9 * k) (idle_worker tmp k) (mk_mem (mk_lock false false 0) c)
      = Some (mk_thread Ret tmp' [], mk_mem (mk_lock false false 0) (c + Z.of_nat k)).
Proof.
  induction k as [|k IH]; intros tmp c.
  - exists tmp. simpl. rewrite Z.add_0_r. reflexivity.
  - destruct (IH c (c + 1)) as [tmp' H]. exists tmp'.
    replace (9 * S k)%nat with (9 + 9 * k)%nat by lia.
    replace (c + Z.of_nat (S k)) with (c + 1 + Z.of_nat k) by lia.
    rewrite thread_iter_add, one_round_alone, H. reflexivity.
Qed.

Lemma one_after_another_finishes (rounds : list nat) :
  forall done c,
    Forall (fun t => finished t = true) done ->
    exists done' c',
      exec (one_after_another (length done) rounds)
           (mk_sys (mk_mem (mk_lock false false 0) c)
                   (done ++ map spawn (map worker rounds)))
      = mk_sys (mk_mem (mk_lock false false 0) c') done'
      /\ Forall (fun t => finished t = true) done'.
Proof.
  induction rounds as [|k rounds IH]; intros done c Hdone.
  - exists done, c. simpl. rewrite app_nil_r. auto.
  - destruct (all_rounds_alone k 0 c) as [tmp' H].
    destruct (IH (done ++ [mk_thread Ret tmp' []]) (c + Z.of_nat k)) as (done' & c' & He & Hf).
    { apply Forall_app. split; [exact Hdone|]. repeat constructor. }
    exists done', c'. split; [|exact Hf].
    simpl one_after_another. rewrite exec_app.
    rewrite (exec_thread_alone (length done) (9 * k) (spawn (worker k)) _ _
               (mk_thread Ret tmp' []) (mk_mem (mk_lock false false 0) (c + Z.of_nat k))).
    + rewrite length_app, Nat.add_1_r in He.
      simpl map. rewrite <- (Nat.add_0_r (length done)) at 2.
      rewrite insert_app_r. simpl. rewrite <- app_assoc in He. exact He.
    + simpl map. apply list_lookup_middle. reflexivity.
    + exact H.
Qed.

Lemma some_schedule_finishes (l : simple_lock_t) (rounds : list nat) :
  forallb finished
    (threads (exec (one_after_another 0 rounds) (start l (map worker rounds))))
  = true.
Proof.
  destruct (one_after_another_finishes rounds [] 0 (List.Forall_nil _))
    as (done' & c' & He & Hf).
  unfold start. simpl app in He. simpl length in He.
  change (simple_lock_init l) with (mk_lock false false 0).
  rewrite He. simpl. apply forallb_forall. intros t Ht.
  rewrite Forall_forall in Hf. apply Hf. apply list_elem_of_In. exact Ht.
Qed.

(** When every store reaches memory at once (the sequentially consistent
    interleaving), whatever the number of threads, the rounds each of them
    runs acquire, [counter++], release, and whatever the interleaving of
    their statements: at every instant at most one thread is between its
    return from acquire and its release, and once all threads have
    finished the counter holds the total number of increments performed.
    Some interleaving does let all of them finish.  The source does not
    make its plain stores reach memory at once; see
    [two_threads_enter_together] below. *)
Lemma mutual_exclusion_when_stores_are_immediate
    (l : simple_lock_t) (rounds : list nat) :
  (forall sched : list nat,
      let s := exec sched (start l (map worker rounds)) in
      (count in_critical (threads s) <= 1)%nat
      /\ (count after_acquire (threads s) <= 1)%nat
      /\ (forallb finished (threads s) = true ->
          counter (mem s) = Z.of_nat (sum_list rounds)))
  /\ (exists sched : list nat,
        forallb finished (threads (exec sched (start l (map worker rounds))))
        = true).
Proof.
  split; [|exists (one_after_another 0 rounds); apply some_schedule_finishes].
  intros sched s.
  pose proof (inv_worker_exec l rounds sched) as Hinv. fold s in Hinv.
  pose proof (owner_count _ _ Hinv) as Hown.
  pose proof (in_critical_le_owns_flag (threads s)).
  pose proof (after_acquire_le_owns_flag (threads s)).
  repeat split; try lia.
  intros Hfin. destruct Hinv as (_ & _ & _ & _ & _ & Hk).
  rewrite (all_finished_pending _ Hfin) in Hk. lia.
Qed.

(* ------------------------------------------------------------------ *)
(** ** [flag] between acquire and release *)

Lemma acquire_never_clears_flag p tmp m p' tmp' m' ev :
  in_acquire p = true ->
  step_pc p tmp m = Some (p', tmp', m', ev) ->
  ~ stores Flag false ev
  /\ (flag (lock m) = true -> flag (lock m') = true).
Proof.
  unfold step_pc.
  destruct p; simpl; try discriminate; intros _ H; inversion H; subst; clear H;
    (split; [intros [E|[mo E]]; discriminate E|simpl; auto]).
Qed.

(** When every store reaches memory at once, and the threads pair every
    acquire with its release, [flag] is true whenever some thread has
    returned from acquire and has not yet performed the store of its
    release.  Under any ordering of the stores, no statement of acquire
    stores [false] to [flag] or turns a true [flag] false, a call of
    acquire that runs alone and returns leaves [flag] true, and release
    and initialise store [false]. *)
Lemma held_until_release_when_stores_are_immediate :
  (forall l rounds sched i t,
      let s := exec sched (start l (map worker rounds)) in
      threads s !! i = Some t ->
      after_acquire (t_pc t) = true ->
      flag (lock (mem s)) = true)
  /\ (forall fuel l l' tr,
        simple_lock_acquire fuel l = Some (l', tr) -> flag l' = true)
  /\ (forall p tmp m p' tmp' m' ev,
        in_acquire p = true ->
        step_pc p tmp m = Some (p', tmp', m', ev) ->
        ~ stores Flag false ev
        /\ (flag (lock m) = true -> flag (lock m') = true))
  /\ (forall l,
        flag (simple_lock_release l) = false
        /\ flag (simple_lock_init l) = false).
Proof.
  split; [|split; [|split]].
  - intros l rounds sched i t s Hlk Hp.
    destruct (inv_worker_exec l rounds sched) as (_ & _ & Hf & _). fold s in Hf.
    assert (Ho : owns_flag (t_pc t) = true) by (destruct (t_pc t); auto; discriminate).
    pose proof (count_member owns_flag _ _ _ Hlk Ho).
    destruct (flag (lock (mem s))); [reflexivity|simpl in Hf; lia].
  - intros fuel l l' tr H. exact (proj1 (acquire_alone_post fuel l l' tr H)).
  - exact acquire_never_clears_flag.
  - intros l. split; reflexivity.
Qed.

(* ------------------------------------------------------------------ *)
(** ** The memory orders of the accesses to [guard] *)

(** C3, on the code: the test-and-set of line 38 is performed with
    acquire ordering, but the stores that clear [guard], line 47 on the
    acquired path and line 52 on the retry path, are plain stores to the
    [volatile] field and carry no release ordering, unlike the store of
    [simple_lock_release] at line 63. *)
Theorem guard_cleared_by_plain_store :
  action_at L38 0 = Some (AtomicTestAndSet Guard ATOMIC_ACQUIRE)
  /\ action_at L47 0 = Some (PlainWrite Guard false)
  /\ action_at L52 0 = Some (PlainWrite Guard false)
  /\ action_at L63 0 = Some (AtomicStore Flag false ATOMIC_RELEASE)
  /\ (forall l extra,
        match simple_lock_acquire (6 + extra) (simple_lock_init l) with
        | Some (_, tr) => guard_store_orders tr = [None]
        | None => False
        end)
  /\ guard_store_orders (snd (thread_run busy_then_free L33 0)) = [None; None].
Proof.
  repeat split.
  intros l extra.
  rewrite (acquire_after_init l extra). reflexivity.
Qed.

(* ------------------------------------------------------------------ *)
(** ** What the plain stores allow *)

Lemma lookup_unbuffered (ts : list thread) (i : nat) :
  map (fun t => mk_bthread t []) ts !! i
  = option_map (fun t => mk_bthread t []) (ts !! i).
Proof.
  change (map ?f ts) with (f <$> ts). rewrite list_lookup_fmap.
  destruct (ts !! i); reflexivity.
Qed.

Lemma insert_unbuffered (ts : list thread) (i : nat) (t : thread) :
  <[i := mk_bthread t []]> (map (fun t => mk_bthread t []) ts)
  = map (fun t => mk_bthread t []) (<[i := t]> ts).
Proof.
  change (map ?f ?l) with (f <$> l). rewrite list_fmap_insert. reflexivity.
Qed.

(** A statement followed by the commit of the store it may have buffered
    is the statement of the interleaving. *)
Lemma weak_step_at_once (i : nat) (s : system) :
  weak_exec [Run i; Commit i 0%nat] (unbuffered s)
  = unbuffered (default s (sys_step i s)).
Proof.
  unfold sys_step. cbn [weak_exec weak_step unbuffered wthreads wmem].
  rewrite lookup_unbuffered.
  destruct (threads s !! i) as [t|] eqn:L; cbn [option_map].
  2:{ cbn. rewrite lookup_unbuffered, L. reflexivity. }
  assert (Hi : (i < length (map (fun t => mk_bthread t []) (threads s)))%nat)
    by (rewrite length_map; eapply lookup_lt_Some; eauto).
  unfold weak_thread_step, thread_step, step_pc.
  cbn [bt_thread bt_buf].
  destruct t as [p tmp todo]. cbn [t_pc t_tmp t_todo].
  destruct s as [[[f g q] c] ts]. cbn [mem threads] in *.
  destruct p; try destruct g; try destruct f; cbn -[resume];
    try (destruct (resume _ todo) as [p'' todo'] eqn:R);
    unfold default, id; cbn [from_option wthreads wmem unbuffered mem threads];
    rewrite ?(list_lookup_insert_eq _ _ _ Hi), ?lookup_unbuffered, ?L;
    cbn; rewrite ?list_insert_insert_eq, ?insert_unbuffered; reflexivity.
Qed.

Lemma weak_exec_app (a b : list move) (s : wsystem) :
  weak_exec (a ++ b) s = weak_exec b (weak_exec a s).
Proof. revert s; induction a as [|mv a IH]; intros s; simpl; auto. Qed.

Lemma weak_exec_at_once (sched : list nat) (s : system) :
  weak_exec (at_once sched) (unbuffered s) = unbuffered (exec sched s).
Proof.
  revert s; induction sched as [|i sched IH]; intros s; [reflexivity|].
  change (at_once (i :: sched)) with ([Run i; Commit i 0%nat] ++ at_once sched).
  rewrite weak_exec_app, weak_step_at_once. simpl. apply IH.
Qed.

(** Every sequentially consistent interleaving is an execution of the
    machine with buffered stores: the one that commits each store at
    once.  The machine adds executions, it removes none. *)
Lemma interleavings_are_weak_executions
    (l : simple_lock_t) (progs : list (list op)) (sched : list nat) :
  weak_exec (at_once sched) (weak_start l progs)
  = unbuffered (exec sched (start l progs)).
Proof.
  rewrite <- weak_exec_at_once. unfold weak_start, unbuffered, start; simpl.
  rewrite map_map. reflexivity.
Qed.

(** C1, on the code: mutual exclusion fails once the plain stores of
    lines 46 and 47 are allowed to reach memory in the other order, as
    the source allows.  Two threads run [thread_function] on the
    initialised lock.  Thread 0 executes lines 33 to 47 and its store
    [guard = false] is committed before its store [flag = true]; thread 1
    then wins the test-and-set of line 38, reads [flag] false at line 44
    and goes on to acquire too.  After line 57 both have returned from
    acquire and both are inside the critical section; when both have
    incremented the counter and released, the counter holds 1 for the 2
    increments performed. *)
Theorem two_threads_enter_together (l : simple_lock_t) :
  let s0 := weak_start l [thread_function; thread_function] in
  weak_exec (take 6 both_enter) s0
  = mk_wsys (mk_mem (mk_lock false false 1) 0)
      [ mk_bthread (mk_thread L57 0 [OpIncr; OpRelease]) [ToField Flag true];
        mk_bthread (mk_thread L33 0 [OpIncr; OpRelease]) [] ]
  /\ weak_exec both_enter s0
     = mk_wsys (mk_mem (mk_lock true false 0) 0)
         [ mk_bthread (mk_thread CS_read 0 [OpRelease]) [];
           mk_bthread (mk_thread CS_read 0 [OpRelease]) [] ]
  /\ count in_critical (map bt_thread (wthreads (weak_exec both_enter s0))) = 2%nat
  /\ total pending (map bt_thread (wthreads s0)) = 2%nat
  /\ weak_exec (both_enter ++ both_leave) s0
     = mk_wsys (mk_mem (mk_lock false false 0) 1)
         [ mk_bthread (mk_thread Ret 0 []) [];
           mk_bthread (mk_thread Ret 0 []) [] ].
Proof. repeat split. Qed.

(** C4, on the code: with the same reordering of the stores of lines 46
    and 47, [flag] does not stay true between a thread's return from
    acquire and its release.  After [both_enter] both threads hold the
    lock; thread 0 increments the counter and releases (line 63), and
    thread 1 is still before its release with [flag] false.  In
    [release_before_return] thread 1 is still at line 57 when thread 0
    releases, and its call of acquire then returns with [flag] false. *)
Theorem flag_cleared_before_release (l : simple_lock_t) :
  let s0 := weak_start l [thread_function; thread_function] in
  weak_exec (both_enter ++ replicate 3 (Run 0%nat)) s0
  = mk_wsys (mk_mem (mk_lock false false 0) 1)
      [ mk_bthread (mk_thread Ret 0 []) [];
        mk_bthread (mk_thread CS_read 0 [OpRelease]) [] ]
  /\ weak_exec (removelast release_before_return) s0
     = mk_wsys (mk_mem (mk_lock false true 1) 1)
         [ mk_bthread (mk_thread Ret 0 []) [];
           mk_bthread (mk_thread L57 0 [OpIncr; OpRelease]) [ToField Guard false] ]
  /\ weak_exec release_before_return s0
     = mk_wsys (mk_mem (mk_lock false false 0) 1)
         [ mk_bthread (mk_thread Ret 0 []) [];
           mk_bthread (mk_thread CS_read 0 [OpRelease]) [] ]
  /\ after_acquire CS_read = true
  /\ in_acquire L57 = true.
Proof. repeat split. Qed.

(* ================================================================== *)
(** * Further properties of the lock *)

Lemma step_spins_forever p tmp m :
  spins_forever p m ->
  exists p' tmp' m' ev,
    step_pc p tmp m = Some (p', tmp', m', ev) /\ spins_forever p' m'.
Proof.
  unfold step_pc.
  destruct p; simpl; try contradiction; intros H;
    try (do 4 eexists; split; [reflexivity|simpl; auto]; fail).
  - destruct (guard (lock m)) eqn:G;
      (do 4 eexists; split; [reflexivity|simpl; auto]).
    destruct H as [H|H]; [discriminate|exact H].
  - rewrite H. do 4 eexists; split; [reflexivity|simpl; auto].
Qed.

Lemma call_spins_forever :
  forall fuel p tmp m, spins_forever p m -> call fuel p tmp m = None.
Proof.
  induction fuel as [|fuel IH]; intros p tmp m H.
  - apply call_O. intros ->. exact H.
  - rewrite call_S by (intros ->; exact H).
    destruct (step_spins_forever p tmp m H) as (p' & tmp' & m' & ev & -> & H').
    rewrite (IH p' tmp' m' H'). reflexivity.
Qed.

(** X1: Acquire called on a lock whose [flag] is set (for instance a second
    time by the thread that holds it) or whose [guard] is set, and left
    alone, never returns, whatever the fuel. *)
Theorem acquire_alone_on_held_lock_hangs (fuel : nat) (l : simple_lock_t) :
  flag l = true \/ guard l = true -> simple_lock_acquire fuel l = None.
Proof.
  intros H. unfold simple_lock_acquire.
  rewrite call_spins_forever; [reflexivity|]. simpl. tauto.
Qed.

Lemma acquire_alone_on_held_lock_hangs_witness :
  simple_lock_acquire 1000 (mk_lock true false 0) = None.
Proof.
  apply (acquire_alone_on_held_lock_hangs 1000 (mk_lock true false 0)).
  left. reflexivity.
Defined.

Lemma wrap_int_up_down (q : Z) :
  INT_MIN <= q <= INT_MAX -> wrap_int (wrap_int (q + 1) - 1) = q.
Proof.
  intros H. destruct (Z.eq_dec q INT_MAX) as [->|Hne].
  - reflexivity.
  - rewrite (wrap_int_small (q + 1)) by lia.
    replace (q + 1 - 1) with q by lia. apply wrap_int_small. exact H.
Qed.

(** X2: On a free lock, acquire followed by release gives back the very lock
    state it started from: acquire returns after its six statements with
    only [flag] changed (the increment and the decrement of [queue] cancel,
    also across the wrap-around at [INT_MAX]), and release undoes that. *)
Theorem acquire_release_round_trip (l : simple_lock_t) (extra : nat) :
  flag l = false -> guard l = false -> queue_is_int l ->
  exists tr,
    simple_lock_acquire (6 + extra) l = Some (set_flag true l, tr)
    /\ length tr = 6%nat
    /\ simple_lock_release (set_flag true l) = l.
Proof.
  destruct l as [f g q]; unfold queue_is_int; cbn [flag guard queue].
  intros -> -> Hq. unfold simple_lock_acquire.
  eexists. rewrite (call_more_fuel extra 6 L33 0 (in_memory (mk_lock false false q))
                      (mk_mem (mk_lock true false (wrap_int (wrap_int (q + 1) - 1))) 0, _)
                      eq_refl).
  rewrite (wrap_int_up_down q Hq). repeat split.
Qed.

Lemma acquire_release_round_trip_witness :
  exists tr,
    simple_lock_acquire 6 (mk_lock false false INT_MAX)
    = Some (mk_lock true false INT_MAX, tr)
    /\ length tr = 6%nat
    /\ simple_lock_release (mk_lock true false INT_MAX) = mk_lock false false INT_MAX.
Proof.
  apply (acquire_release_round_trip (mk_lock false false INT_MAX) 0);
    [reflexivity|reflexivity|]. unfold queue_is_int; simpl.
  unfold INT_MIN, INT_MAX. lia.
Defined.

Lemma all_finished_count (P : pc -> bool) (ts : list thread) :
  P Ret = false -> forallb finished ts = true -> count P ts = O.
Proof.
  intros HP. unfold count.
  induction ts as [|[p tmp todo] ts IH]; simpl; [reflexivity|].
  intros H. apply andb_prop in H as [H1 H2]. rewrite (IH H2).
  unfold finished in H1; simpl in H1.
  destruct p; try discriminate. rewrite HP. reflexivity.
Qed.

(** X3: Once all threads running [thread_function] any number of times have
    finished, the lock is exactly as initialise left it: [flag] and
    [guard] false and [queue] zero, under every interleaving. *)
Theorem lock_free_when_all_finished
  (l : simple_lock_t) (rounds : list nat) (sched : list nat) :
  Z.of_nat (length rounds) <= INT_MAX ->
  let s := exec sched (start l (map worker rounds)) in
  forallb finished (threads s) = true ->
  lock (mem s) = simple_lock_init l.
Proof.
  intros Hlen s Hfin.
  destruct (inv_worker_exec l rounds sched) as (_ & Hg & Hf & _).
  fold s in Hg, Hf. unfold inv_guard in Hg.
  assert (Hq : inv_queue s).
  { apply inv_queue_exec. rewrite length_map. exact Hlen. }
  unfold inv_queue in Hq.
  rewrite (all_finished_count holds_guard _ eq_refl Hfin) in Hg.
  rewrite (all_finished_count owns_flag _ eq_refl Hfin) in Hf.
  rewrite (all_finished_count contending _ eq_refl Hfin) in Hq.
  destruct (lock (mem s)) as [f g q]; simpl in *. subst q.
  destruct f, g; try discriminate. reflexivity.
Qed.

Lemma lock_free_when_all_finished_witness :
  lock (mem (exec round_robin (main (mk_lock true true 9))))
  = simple_lock_init (mk_lock true true 9).
Proof.
  apply (lock_free_when_all_finished (mk_lock true true 9) [1; 1; 1]%nat round_robin).
  - vm_compute. discriminate.
  - vm_compute. reflexivity.
Defined.

(* ================================================================== *)
(** * The program: [thread_function] and [main] *)

Section Sums.
Context {A : Type} (w : A -> nat).

Lemma sum_lookup (l : list A) (i : nat) (x : A) :
  l !! i = Some x -> sum_list_with w l = (w x + sum_list_with w (delete i l))%nat.
Proof.
  revert i. induction l as [|a l IH]; intros [|i] H; simpl in *; try discriminate.
  - inversion H; subst; reflexivity.
  - rewrite (IH i H). lia.
Qed.

Lemma sum_insert (l : list A) (i : nat) (x y : A) :
  l !! i = Some x ->
  sum_list_with w (<[i := y]> l) = (w y + sum_list_with w (delete i l))%nat.
Proof.
  revert i. induction l as [|a l IH]; intros [|i] H; simpl in *; try discriminate.
  - reflexivity.
  - rewrite (IH i H). lia.
Qed.

Lemma sum_le (w' : A -> nat) (l : list A) :
  (forall x, (w x <= w' x)%nat) -> (sum_list_with w l <= sum_list_with w' l)%nat.
Proof.
  intros H. induction l as [|a l IH]; simpl; [lia|]. specialize (H a). lia.
Qed.

Lemma sum_zero (l : list A) :
  (forall i x, l !! i = Some x -> w x = O) -> sum_list_with w l = O.
Proof.
  induction l as [|a l IH]; intros H; simpl; [reflexivity|].
  rewrite (H O a eq_refl), IH; [reflexivity|].
  intros i x Hx. exact (H (S i) x Hx).
Qed.
End Sums.

Ltac split_sums Hlk :=
  repeat match goal with
    | |- context [sum_list_with ?w (<[_ := _]> _)] =>
        rewrite (sum_insert w _ _ _ _ Hlk)
    | H : context [sum_list_with ?w (<[_ := _]> _)] |- _ =>
        rewrite (sum_insert w _ _ _ _ Hlk) in H
    end;
  repeat match goal with
    | H : context [sum_list_with ?w ?ts] |- _ =>
        lazymatch ts with
        | delete _ _ => fail
        | _ => rewrite (sum_lookup w _ _ _ Hlk) in H
        end
    | |- context [sum_list_with ?w ?ts] =>
        lazymatch ts with
        | delete _ _ => fail
        | _ => rewrite (sum_lookup w _ _ _ Hlk)
        end
    end.

Lemma log_parse_snoc (log : list message) (m : message) :
  forall ph,
    log_parse ph (log ++ [m])
    = match log_parse ph log with
      | Some ph' => log_step ph' m
      | None => None
      end.
Proof.
  induction log as [|a log IH]; intros ph; simpl.
  - destruct (log_step ph m); reflexivity.
  - destruct (log_step ph a) as [ph'|]; [apply IH|reflexivity].
Qed.

Lemma hello_ids_snoc (log : list message) (m : message) :
  hello_ids (log ++ [m])
  = hello_ids log ++ match is_hello m with Some id => [id] | None => [] end.
Proof.
  unfold hello_ids. rewrite omap_app. simpl. destruct (is_hello m); reflexivity.
Qed.

(** The two ways the process moves. *)
Lemma proc_step_cases ok x s s' :
  proc_step ok x s = Some s' ->
  exit_status s = None
  /\ ((x = Main /\ main_step ok s = Some s')
      \/ exists i w w' l' out',
          x = Thread i
          /\ p_workers s !! i = Some w
          /\ tf_step w (p_lock s) (p_stdout s) = Some (w', l', out')
          /\ s' = mk_proc l' out' (p_stderr s) (p_main s) (<[i := w']> (p_workers s))).
Proof.
  unfold proc_step. destruct (exit_status s); [discriminate|].
  intros H. split; [reflexivity|]. destruct x as [|i]; [left; auto|right].
  destruct (p_workers s !! i) as [w|] eqn:Hlk; [|discriminate].
  destruct (tf_step w (p_lock s) (p_stdout s)) as [[[w' l'] out']|] eqn:E;
    [|discriminate].
  inversion H; subst. exists i, w, w', l', out'. auto.
Qed.

(** What a statement of [thread_function] does to the thread itself. *)
Lemma tf_step_thread w l out w' l' out' :
  tf_wf w ->
  tf_step w l out = Some (w', l', out') ->
  w_pc w <> T_unborn /\ w_pc w <> T_done
  /\ w_pc w' <> T_unborn /\ w_pc w' <> T71
  /\ w_arg w' = w_arg w
  /\ tf_wf w'
  /\ (w_pc w = T71 -> thread_id w' = nth (w_arg w) thread_ids 0)
  /\ (w_pc w <> T71 -> thread_id w' = thread_id w).
Proof.
  destruct w as [c a id]. unfold tf_wf, tf_step, lock_call_step, step_pc; simpl.
  intros Hwf H.
  destruct c as [| |p| | | | | |]; try discriminate;
    try (inversion H; subst; clear H; simpl; repeat split; congruence).
  destruct p; try discriminate Hwf; simpl in H;
    try (inversion H; subst; clear H; simpl; repeat split; congruence).
  - destruct (guard l); inversion H; subst; simpl; repeat split; congruence.
  - destruct (flag l); inversion H; subst; simpl; repeat split; congruence.
Qed.

(** A thread that moves was created and has not been joined. *)
Lemma moving_thread_alive ok s i w w' l' out' :
  proc_inv ok s ->
  p_workers s !! i = Some w ->
  tf_step w (p_lock s) (p_stdout s) = Some (w', l', out') ->
  (i < 3)%nat /\ p_main s <> M95
  /\ main_before (p_main s) = false /\ main_after (p_main s) = false
  /\ ~ not_yet_created (p_main s) i /\ ~ joined (p_main s) i.
Proof.
  intros Hinv Hlk Hstep.
  pose proof (proj1 (Forall_lookup _ _) (pi_wf _ _ Hinv) i w Hlk) as Hwf.
  destruct (tf_step_thread _ _ _ _ _ _ Hwf Hstep) as (Hu & Hd & _).
  assert (Hn : ~ not_yet_created (p_main s) i).
  { intros H. exact (Hu (pi_unborn _ _ Hinv i w Hlk H)). }
  assert (Hj : ~ joined (p_main s) i).
  { intros H. exact (Hd (pi_joined _ _ Hinv i w Hlk H)). }
  split.
  - rewrite <- (pi_length _ _ Hinv). eapply lookup_lt_Some; exact Hlk.
  - destruct (p_main s); simpl in *; repeat split; auto; try discriminate;
      try (exfalso; apply Hn; exact I); try (exfalso; apply Hj; exact I).
Qed.

Ltac tf_cases H Hwf :=
  match type of H with
  | tf_step ?w ?l _ = _ =>
      destruct w as [? ? ?];
      unfold tf_wf, tf_step, lock_call_step, step_pc in H, Hwf; simpl in H, Hwf;
      match goal with c : tf_pc |- _ => destruct c end;
      try discriminate H;
      try (match goal with p : pc |- _ => destruct p end;
           try discriminate Hwf; simpl in H);
      try match type of H with
        | context [if ?b then _ else _] => destruct b eqn:?
        end;
      inversion H; subst; clear H
  end.

Lemma sum_le_length {A : Type} (w : A -> nat) (l : list A) :
  (forall x, (w x <= 1)%nat) -> (sum_list_with w l <= length l)%nat.
Proof.
  intros H. induction l as [|a l IH]; simpl; [lia|]. specialize (H a). lia.
Qed.

Lemma tf_contending_le_1 (w : worker_t) : (tf_contending w <= 1)%nat.
Proof.
  unfold tf_contending. destruct (w_pc w); try lia.
  destruct (contending p); simpl; lia.
Qed.

Lemma tf_about_le_holds (ws : list worker_t) :
  (sum_list_with tf_about_to_own ws <= sum_list_with tf_holds_guard ws)%nat.
Proof.
  apply sum_le.
  intros [[| |[]| | | | | |] a id]; unfold tf_about_to_own, tf_holds_guard;
    simpl; lia.
Qed.

Lemma tf_inside_le_owns (ws : list worker_t) :
  (sum_list_with tf_inside ws <= sum_list_with tf_owns ws)%nat.
Proof.
  apply sum_le.
  intros [[| |[]| | | | | |] a id]; unfold tf_inside, tf_owns; simpl; lia.
Qed.

Lemma tf_inside_other_le_inside (id : Z) (ws : list worker_t) :
  (sum_list_with (tf_inside_other id) ws <= sum_list_with tf_inside ws)%nat.
Proof.
  apply sum_le.
  intros [[| |[]| | | | | |] a id']; unfold tf_inside_other, tf_inside; simpl;
    try lia; destruct (negb (id' =? id)); simpl; lia.
Qed.

(** A statement of a thread keeps the lock in agreement with the
    threads. *)
Lemma tf_step_lock ws i w w' l l' out out' :
  length ws = 3%nat ->
  ws !! i = Some w -> tf_wf w ->
  tf_step w l out = Some (w', l', out') ->
  lock_counts l ws -> lock_counts l' (<[i := w']> ws).
Proof.
  unfold lock_counts. destruct l as [f g q]; cbn [flag guard queue].
  intros Hlen Hlk Hwf H (Hg & Hf & Ha & Hq).
  pose proof (sum_le_length tf_contending (<[i := w']> ws) tf_contending_le_1) as Hc.
  rewrite length_insert, Hlen in Hc.
  pose proof (tf_about_le_holds (delete i ws)) as R1.
  assert (Hmin : INT_MIN <= 0 /\ 3 <= INT_MAX) by (unfold INT_MIN, INT_MAX; lia).
  tf_cases H Hwf; simpl in *; split_sums Hlk;
    unfold tf_holds_guard, tf_owns, tf_about_to_own, tf_contending in *; simpl in *;
    try rewrite Hq; try (rewrite wrap_int_small by lia);
    repeat match goal with b : bool |- _ => destruct b end;
    simpl in *; try discriminate; lia.
Qed.

Ltac inside_bounds :=
  repeat match goal with
    | |- context [sum_list_with (tf_inside_other ?id) (delete ?i ?ws)] =>
        lazymatch goal with
        | _ : (sum_list_with (tf_inside_other id) (delete i ws)
               <= sum_list_with tf_inside (delete i ws))%nat |- _ => fail
        | _ => pose proof (tf_inside_other_le_inside id (delete i ws))
        end
    end.

(** A statement of a thread keeps the output well formed: the first
    [printf] of a critical section finds no other section open, the second
    closes the section of the same thread. *)
Lemma tf_step_log ws i w w' l l' out out' c :
  ws !! i = Some w -> tf_wf w ->
  tf_step w l out = Some (w', l', out') ->
  lock_counts l ws ->
  main_before c = false -> main_after c = false ->
  log_ok out c ws -> log_ok out' c (<[i := w']> ws).
Proof.
  unfold lock_counts, log_ok.
  intros Hlk Hwf H (_ & Hf & _ & _) Hb Ha (ph & Hparse & Hph).
  pose proof (tf_inside_le_owns (delete i ws)) as R2.
  assert (Hfl : (b2n (flag l) <= 1)%nat) by (destruct (flag l); simpl; lia).
  tf_cases H Hwf;
    first
      [ exists ph; split; [exact Hparse|];
        destruct ph; simpl in *; rewrite ?Hb, ?Ha in *; try discriminate;
        split_sums Hlk; unfold tf_inside, tf_inside_other, tf_owns in *;
        simpl in *; repeat split; lia
      | rewrite log_parse_snoc, Hparse;
        destruct ph; simpl in *; rewrite ?Hb, ?Ha in *; try discriminate;
        split_sums Hlk; unfold tf_inside, tf_owns in *; simpl in *;
        try lia ].
  - (* line 77 *)
    eexists; split; [reflexivity|].
    unfold phase_ok; cbn [p_main p_workers]. rewrite Hb, Ha.
    match goal with
    | |- context [tf_inside_other ?z] =>
        pose proof (tf_inside_other_le_inside z (delete i ws)) as R3
    end.
    split_sums Hlk. unfold tf_inside, tf_inside_other in *; simpl in *.
    rewrite Z.eqb_refl. simpl. repeat split; lia.
  - (* line 82 *)
    destruct Hph as (_ & _ & Hone & Hother).
    split_sums Hlk. unfold tf_inside_other in Hother; simpl in Hother.
    match type of Hother with
    | context [(?a =? ?b)] => destruct (a =? b) eqn:E; simpl in Hother; [|lia]
    end.
    apply Z.eqb_eq in E; subst. rewrite Z.eqb_refl.
    eexists; split; [reflexivity|].
    unfold phase_ok; cbn [p_main p_workers]. rewrite Hb, Ha.
    split_sums Hlk. unfold tf_inside in *; simpl in *. repeat split; lia.
Qed.

(** A thread prints its first line once, with its own number. *)
Lemma tf_step_hello (ws : list worker_t) i w w' l l' out out' :
  ws !! i = Some w -> tf_wf w ->
  tf_step w l out = Some (w', l', out') ->
  (i < 3)%nat ->
  (w_pc w <> T_unborn -> w_pc w <> T71 -> thread_id w = Z.of_nat i + 1) ->
  (forall j wj, ws !! j = Some wj ->
                count_occ Z.eq_dec (hello_ids out) (Z.of_nat j + 1) = tf_past_77 wj) ->
  Forall (fun id => 1 <= id <= 3) (hello_ids out) ->
  (forall j wj, <[i := w']> ws !! j = Some wj ->
                count_occ Z.eq_dec (hello_ids out') (Z.of_nat j + 1) = tf_past_77 wj)
  /\ Forall (fun id => 1 <= id <= 3) (hello_ids out').
Proof.
  intros Hlk Hwf H Hi Hid Hcount Hrange.
  pose proof (Hcount i w Hlk) as Hme.
  assert (Hothers : forall j wj, j <> i -> <[i := w']> ws !! j = Some wj ->
                                 ws !! j = Some wj).
  { intros j wj Hne Hj. rewrite list_lookup_insert_ne in Hj by auto. exact Hj. }
  assert (Hmine : forall j wj, <[i := w']> ws !! j = Some wj ->
                               j = i -> wj = w').
  { intros j wj Hj ->. rewrite list_lookup_insert_eq in Hj
      by (eapply lookup_lt_Some; exact Hlk). congruence. }
  tf_cases H Hwf; rewrite ?hello_ids_snoc; simpl; rewrite ?app_nil_r;
    unfold tf_past_77 in Hme; simpl in Hme, Hid;
    try (split; [|exact Hrange]; intros j wj Hj;
         destruct (decide (j = i)) as [->|Hne];
         [rewrite (Hmine _ _ Hj eq_refl); exact Hme|exact (Hcount _ _ (Hothers _ _ Hne Hj))]).
  specialize (Hid ltac:(discriminate) ltac:(discriminate)). subst. split.
  - intros j wj Hj. rewrite count_occ_app; simpl.
    destruct (decide (j = i)) as [->|Hne].
    + rewrite (Hmine _ _ Hj eq_refl), Hme.
      destruct (Z.eq_dec (Z.of_nat i + 1) (Z.of_nat i + 1)); [reflexivity|congruence].
    + rewrite (Hcount _ _ (Hothers _ _ Hne Hj)).
      destruct (Z.eq_dec (Z.of_nat i + 1) (Z.of_nat j + 1)); [lia|lia].
  - apply Forall_app. split; [exact Hrange|]. repeat constructor; lia.
Qed.

(** The invariant is kept by every statement of a thread. *)
Lemma proc_inv_thread_step ok s i w w' l' out' :
  proc_inv ok s ->
  p_workers s !! i = Some w ->
  tf_step w (p_lock s) (p_stdout s) = Some (w', l', out') ->
  proc_inv ok (mk_proc l' out' (p_stderr s) (p_main s) (<[i := w']> (p_workers s))).
Proof.
  intros Hinv Hlk Hstep.
  pose proof (proj1 (Forall_lookup _ _) (pi_wf _ _ Hinv) i w Hlk) as Hwf.
  destruct (tf_step_thread _ _ _ _ _ _ Hwf Hstep)
    as (Hu & Hd & Hu' & H71' & Harg & Hwf' & Hid71 & Hid).
  destruct (moving_thread_alive _ _ _ _ _ _ _ Hinv Hlk Hstep)
    as (Hi & H95 & Hb & Ha & Hn & Hj).
  destruct (pi_ids _ _ Hinv i w Hlk Hu) as [Hargi Hidi].
  destruct (tf_step_hello _ _ _ _ _ _ _ _ Hlk Hwf Hstep Hi
              (fun _ => Hidi) (pi_hello _ _ Hinv) (pi_hello_range _ _ Hinv))
    as [Hhello Hrange].
  constructor; cbn [p_lock p_stdout p_stderr p_main p_workers].
  - rewrite length_insert. exact (pi_length _ _ Hinv).
  - exact (pi_bound _ _ Hinv).
  - apply Forall_insert; [exact (pi_wf _ _ Hinv)|exact Hwf'].
  - intros j wj Hlj Hborn.
    destruct (decide (j = i)) as [->|Hne].
    + rewrite list_lookup_insert_eq in Hlj by (eapply lookup_lt_Some; exact Hlk).
      inversion Hlj; subst wj. split; [congruence|]. intros _.
      destruct (w_pc w) eqn:Epc;
        try (rewrite Hid by congruence; apply Hidi; congruence).
      rewrite (Hid71 eq_refl), Hargi.
      destruct i as [|[|[|i]]]; [reflexivity|reflexivity|reflexivity|lia].
    + rewrite list_lookup_insert_ne in Hlj by auto.
      exact (pi_ids _ _ Hinv j wj Hlj Hborn).
  - intros j wj Hlj Hnot.
    destruct (decide (j = i)) as [->|Hne]; [contradiction|].
    rewrite list_lookup_insert_ne in Hlj by auto.
    exact (pi_unborn _ _ Hinv j wj Hlj Hnot).
  - intros j wj Hlj Hjoin.
    destruct (decide (j = i)) as [->|Hne]; [contradiction|].
    rewrite list_lookup_insert_ne in Hlj by auto.
    exact (pi_joined _ _ Hinv j wj Hlj Hjoin).
  - exact (pi_created _ _ Hinv).
  - exact (pi_failed _ _ Hinv).
  - exact (pi_stderr _ _ Hinv).
  - intros _. eapply tf_step_lock; eauto using pi_length, pi_lock.
  - eapply tf_step_log; eauto using pi_lock, pi_log.
  - exact Hhello.
  - exact Hrange.
Qed.

Ltac main_cases H :=
  match type of H with
  | main_step ?ok ?s = _ =>
      destruct s as [l out err mp ws];
      unfold main_step in H; cbn [p_main p_lock p_stdout p_stderr p_workers] in *;
      destruct mp as [ | |i| | |i|i| | | | ]; try discriminate H;
      try match type of H with
        | context [ok ?i] => destruct (ok i) eqn:Hok
        | context [ws !! ?i] =>
            destruct (ws !! i) as [wi|] eqn:Hwi; [|discriminate H];
            destruct (w_pc wi) eqn:Hpc; try discriminate H
        end;
      inversion H; subst; clear H
  end.

Ltac loop_index :=
  match goal with
  | Hb : loop_bound _ |- _ =>
      simpl in Hb;
      match type of Hb with
      | (?i < 3)%nat =>
          destruct i as [|[|[|?]]]; [| | |exfalso; lia];
          cbv [create_loop join_loop Nat.ltb Nat.leb] in *
      end
  end.

Lemma sum_all_at {A : Type} (w : A -> nat) (P : A -> Prop) (l : list A) :
  (forall x, P x -> w x = O) ->
  (forall j x, l !! j = Some x -> P x) ->
  sum_list_with w l = O.
Proof. intros HP Hl. apply sum_zero. intros i x Hx. apply HP. eapply Hl; eauto. Qed.

Lemma lock_counts_init (l : simple_lock_t) (ws : list worker_t) :
  (forall j w, ws !! j = Some w -> w_pc w = T_unborn) ->
  lock_counts (simple_lock_init l) ws.
Proof.
  intros H. unfold lock_counts.
  rewrite !(sum_all_at _ (fun w => w_pc w = T_unborn) ws); try exact H;
    try (intros [c a id] Hc; simpl in Hc; subst c; reflexivity).
  repeat split. simpl. lia.
Qed.

Lemma lock_counts_create (l : simple_lock_t) (ws : list worker_t) i wi :
  ws !! i = Some wi -> w_pc wi = T_unborn ->
  lock_counts l ws -> lock_counts l (<[i := mk_worker T71 i 0]> ws).
Proof.
  unfold lock_counts. intros Hlk Hpc H. destruct wi as [c a id]; simpl in Hpc; subst c.
  split_sums Hlk. exact H.
Qed.

Lemma inside_create (ws : list worker_t) i wi id :
  ws !! i = Some wi -> w_pc wi = T_unborn ->
  sum_list_with tf_inside (<[i := mk_worker T71 i 0]> ws) = sum_list_with tf_inside ws
  /\ sum_list_with (tf_inside_other id) (<[i := mk_worker T71 i 0]> ws)
     = sum_list_with (tf_inside_other id) ws.
Proof.
  intros Hlk Hpc. destruct wi as [c a id']; simpl in Hpc; subst c.
  rewrite !(sum_insert _ _ _ _ _ Hlk), !(sum_lookup _ _ _ _ Hlk). auto.
Qed.

Lemma hello_ids_not_hello (out : list message) (m : message) :
  is_hello m = None -> hello_ids (out ++ [m]) = hello_ids out.
Proof. intros H. rewrite hello_ids_snoc, H. apply app_nil_r. Qed.

Ltac open_inv Hinv :=
  destruct Hinv as [Hlen Hbound Hwf Hids Hunborn Hjoined Hcreated Hfailed
                      Hstderr Hlock Hlog Hhello Hrange].

(** The invariant is kept by every statement of [main]. *)
Lemma proc_inv_main_step ok s s' :
  proc_inv ok s -> main_step ok s = Some s' -> proc_inv ok s'.
Proof.
  intros Hinv Hstep. constructor.
  - (* three slots *)
    open_inv Hinv. main_cases Hstep; simpl; rewrite ?length_insert; exact Hlen.
  - (* loop bounds *)
    open_inv Hinv. main_cases Hstep; simpl; auto; loop_index; simpl; lia.
  - (* threads inside acquire *)
    open_inv Hinv. main_cases Hstep; simpl; auto.
    apply Forall_insert; [exact Hwf|exact I].
  - (* thread numbers *)
    open_inv Hinv. main_cases Hstep; cbn [p_workers]; auto.
    intros j w Hj Hborn. destruct (decide (j = i)) as [->|Hne].
    + rewrite list_lookup_insert_eq in Hj by (simpl in Hbound; lia).
      inversion Hj; subst. simpl. split; [reflexivity|congruence].
    + rewrite list_lookup_insert_ne in Hj by auto. exact (Hids j w Hj Hborn).
  - (* threads not yet created *)
    open_inv Hinv. main_cases Hstep; cbn [p_workers p_main];
      try (intros j w Hj []; fail);
      try (intros j w Hj Hn; apply (Hunborn j w Hj); simpl in *; auto; lia).
    + intros j w Hj Hn. simpl in Hn.
      rewrite list_lookup_insert_ne in Hj by lia.
      apply (Hunborn j w Hj). simpl. lia.
    + loop_index; simpl; intros j w Hj Hn; try contradiction;
        apply (Hunborn j w Hj); simpl; lia.
    + loop_index; simpl; intros j w Hj Hn; contradiction.
  - (* threads joined *)
    open_inv Hinv. main_cases Hstep; cbn [p_workers p_main];
      try (intros j w Hj []; fail);
      try (intros j w Hj Hn; apply (Hjoined j w Hj); simpl in *; auto; lia).
    + loop_index; simpl; intros j w Hj Hn; first [contradiction|lia].
    + assert (Hall : forall j w, ws !! j = Some w -> (j <= i)%nat -> w_pc w = T_done).
      { intros j w Hj Hle. destruct (decide (j = i)) as [->|Hne].
        - congruence.
        - apply (Hjoined j w Hj). simpl. lia. }
      loop_index; simpl; intros j w Hj Hn; apply (Hall j w Hj); try lia.
      apply lookup_lt_Some in Hj. lia.
  - (* creations that succeeded *)
    open_inv Hinv. main_cases Hstep; cbn [p_main];
      try (intros j []; fail);
      try (intros j Hc; apply Hcreated; simpl in *; auto; lia).
    + intros j Hc. simpl in Hc. destruct (decide (j = i)) as [->|Hne];
        [exact Hok|apply Hcreated; simpl; lia].
    + loop_index; simpl; intros j Hc; apply Hcreated; simpl; lia.
    + loop_index; simpl; intros j Hc; apply Hcreated; simpl; lia.
  - (* the creation that failed *)
    open_inv Hinv. main_cases Hstep; cbn [p_main]; try discriminate; auto;
      try (loop_index; simpl; discriminate).
    intros _. exists i. split; [exact Hbound|exact Hok].
  - (* standard error *)
    open_inv Hinv. main_cases Hstep; cbn [p_main p_stderr] in *;
      try (loop_index; simpl); try (rewrite Hstderr); reflexivity.
  - (* the lock *)
    open_inv Hinv. main_cases Hstep; cbn [p_main p_lock p_workers] in *;
      intros Hne; try congruence;
      try (apply Hlock; discriminate).
    + apply lock_counts_init. intros j w Hj. exact (Hunborn j w Hj I).
    + assert (Hslot : exists wi, ws !! i = Some wi /\ w_pc wi = T_unborn).
      { destruct (lookup_lt_is_Some_2 ws i) as [wi Hi]; [simpl in Hbound; lia|].
        exists wi. split; [exact Hi|]. eapply Hunborn; [exact Hi|simpl; lia]. }
      destruct Hslot as (wi & Hi & Hu).
      eapply lock_counts_create; [exact Hi|exact Hu|apply Hlock; discriminate].
  - (* standard output *)
    open_inv Hinv. destruct Hlog as (ph & Hparse & Hph).
    main_cases Hstep; unfold log_ok; cbn [p_main p_stdout p_workers] in *;
      try match goal with
        | |- context [create_loop (S _)] => loop_index
        | |- context [join_loop (S _)] => loop_index
        end;
      try (exists ph; split; [exact Hparse|];
           destruct ph; simpl in *; try discriminate; tauto).
    + (* line 97 *)
      rewrite log_parse_snoc, Hparse.
      destruct ph; simpl in Hph; try (destruct Hph; discriminate); try discriminate.
      eexists; split; [reflexivity|]. simpl. repeat split.
      apply (sum_all_at _ (fun w => w_pc w = T_unborn)).
      * intros [c a id] Hc; simpl in Hc; subst c; reflexivity.
      * intros j w Hj. exact (Hunborn j w Hj I).
    + (* line 101 *)
      assert (Hslot : exists wi, ws !! i = Some wi /\ w_pc wi = T_unborn).
      { destruct (lookup_lt_is_Some_2 ws i) as [wi Hi]; [simpl in Hbound; lia|].
        exists wi. split; [exact Hi|]. eapply Hunborn; [exact Hi|simpl; lia]. }
      destruct Hslot as (wi & Hi & Hu).
      exists ph; split; [exact Hparse|].
      destruct ph; simpl in *; try discriminate;
        rewrite ?(proj1 (inside_create ws i _ 0 Hi Hu));
        try rewrite (proj2 (inside_create ws i _ id Hi Hu)); tauto.
    + (* line 115 *)
      assert (Hin : sum_list_with tf_inside ws = O).
      { apply (sum_all_at _ (fun w => w_pc w = T_done)).
        - intros [c a id] Hc; simpl in Hc; subst c; reflexivity.
        - intros j w Hj. exact (Hjoined j w Hj I). }
      rewrite log_parse_snoc, Hparse.
      destruct ph; simpl in Hph; try discriminate;
        try (destruct Hph as (_ & _ & Hone & _); lia).
      eexists; split; [reflexivity|]. reflexivity.
  - (* first lines *)
    open_inv Hinv.
    main_cases Hstep; cbn [p_main p_stdout p_workers] in *;
      rewrite ?hello_ids_not_hello by reflexivity; try exact Hhello.
    intros j w Hj. destruct (decide (j = i)) as [->|Hne].
    + rewrite list_lookup_insert_eq in Hj by (simpl in Hbound; lia).
      inversion Hj; subst w.
      assert (Hslot : exists wi, ws !! i = Some wi /\ w_pc wi = T_unborn).
      { destruct (lookup_lt_is_Some_2 ws i) as [wi Hi]; [simpl in Hbound; lia|].
        exists wi. split; [exact Hi|]. eapply Hunborn; [exact Hi|simpl; lia]. }
      destruct Hslot as (wi & Hi & Hu).
      rewrite (Hhello i _ Hi). unfold tf_past_77. rewrite Hu. reflexivity.
    + rewrite list_lookup_insert_ne in Hj by auto. exact (Hhello j w Hj).
  - open_inv Hinv.
    main_cases Hstep; cbn [p_main p_stdout p_workers] in *;
      rewrite ?hello_ids_not_hello by reflexivity; exact Hrange.
Qed.

Lemma proc_inv_boot ok l : proc_inv ok (boot l).
Proof.
  assert (Hslots : forall j w,
             replicate 3 (mk_worker T_unborn 0 0) !! j = Some w ->
             w = mk_worker T_unborn 0 0).
  { intros j w H. apply lookup_replicate in H as [-> _]. reflexivity. }
  constructor; cbn [boot p_lock p_stdout p_stderr p_main p_workers].
  - reflexivity.
  - exact I.
  - repeat constructor.
  - intros j w Hj Hb. rewrite (Hslots j w Hj) in Hb. contradiction.
  - intros j w Hj _. rewrite (Hslots j w Hj). reflexivity.
  - intros j w Hj [].
  - intros j [].
  - discriminate.
  - reflexivity.
  - congruence.
  - exists Ph_before. split; reflexivity.
  - intros j w Hj. rewrite (Hslots j w Hj). reflexivity.
  - constructor.
Qed.

Lemma proc_inv_step ok x s s' :
  proc_inv ok s -> proc_step ok x s = Some s' -> proc_inv ok s'.
Proof.
  intros Hinv H.
  destruct (proc_step_cases _ _ _ _ H)
    as [_ [[_ Hm]|(i & w & w' & l' & out' & _ & Hlk & Hstep & ->)]].
  - exact (proc_inv_main_step _ _ _ Hinv Hm).
  - exact (proc_inv_thread_step _ _ _ _ _ _ _ Hinv Hlk Hstep).
Qed.

Lemma proc_inv_run ok l sched : proc_inv ok (run ok sched (boot l)).
Proof.
  generalize (proc_inv_boot ok l). generalize (boot l).
  induction sched as [|x sched IH]; intros s Hs; simpl; [exact Hs|].
  apply IH. destruct (proc_step ok x s) as [s'|] eqn:E; simpl; [|exact Hs].
  exact (proc_inv_step _ _ _ _ Hs E).
Qed.

(** What a well-formed standard output looks like, phase by phase. *)
Lemma log_shape (log : list message) :
  forall ph,
    log_parse Ph_before log = Some ph ->
    match ph with
    | Ph_before => log = []
    | Ph_closed =>
        log = Starting_threads :: flat_map block (hello_ids log)
    | Ph_open id =>
        exists order,
          hello_ids log = order ++ [id]
          /\ log = Starting_threads :: flat_map block order ++ [Hello_from_thread id]
    | Ph_after =>
        log = Starting_threads :: flat_map block (hello_ids log)
                ++ [All_threads_completed]
    end.
Proof.
  induction log as [|m log IH] using rev_ind; intros ph H.
  - inversion H; subst. reflexivity.
  - rewrite log_parse_snoc in H.
    destruct (log_parse Ph_before log) as [ph0|]; [|discriminate].
    specialize (IH ph0 eq_refl). rewrite hello_ids_snoc.
    destruct ph0, m; simpl in H; try discriminate; inversion H; subst; simpl.
    + reflexivity.
    + exists (hello_ids log). split; [reflexivity|].
      rewrite IH at 1. reflexivity.
    + rewrite app_nil_r. rewrite IH at 1. reflexivity.
    + destruct (id =? id0) eqn:E; [|discriminate].
      apply Z.eqb_eq in E; subst id0. inversion H; subst.
      destruct IH as (order & Hids & ->). rewrite Hids, app_nil_r.
      rewrite flat_map_app. simpl. rewrite <- !app_assoc. reflexivity.
Qed.

Lemma completed_not_in_blocks (order : list Z) :
  ~ In All_threads_completed (flat_map block order).
Proof.
  intros H. apply in_flat_map in H as (id & _ & Hin).
  destruct Hin as [H|[H|[]]]; discriminate H.
Qed.

Lemma completed_only_after (out : list message) (ph : phase) :
  log_parse Ph_before out = Some ph ->
  In All_threads_completed out -> ph = Ph_after.
Proof.
  intros Hparse Hin. pose proof (log_shape out ph Hparse) as Hs.
  destruct ph; try reflexivity; exfalso.
  - subst out. destruct Hin.
  - rewrite Hs in Hin. destruct Hin as [H|H]; [discriminate|].
    exact (completed_not_in_blocks _ H).
  - destruct Hs as (order & _ & ->). destruct Hin as [H|H]; [discriminate|].
    apply in_app_or in H as [H|[H|[]]]; [|discriminate].
    exact (completed_not_in_blocks _ H).
Qed.

(** X8: When a [pthread_create] fails, [main] reports it and stops: if the
    process has exited with status 1, standard error holds the one
    [perror] line, some creation among the three did fail, and
    ["All threads have completed"] was not printed; and whenever one of the
    three creations is bound to fail, no schedule lets [main] return 0 or
    print that line. *)
Theorem main_returns_1_when_create_fails
  (ok : nat -> bool) (l : simple_lock_t) (sched : list who) :
  let s := run ok sched (boot l) in
  (exit_status s = Some 1 ->
   p_stderr s = [Failed_to_create_thread]
   /\ (exists i, (i < 3)%nat /\ ok i = false)
   /\ ~ In All_threads_completed (p_stdout s))
  /\ ((exists i, (i < 3)%nat /\ ok i = false) ->
      exit_status s <> Some 0 /\ ~ In All_threads_completed (p_stdout s)).
Proof.
  intros s. pose proof (proc_inv_run ok l sched) as Hinv. fold s in Hinv.
  destruct (pi_log _ _ Hinv) as (ph & Hparse & Hph).
  split.
  - intros Hexit.
    assert (Hmain : p_main s = Exited_1).
    { unfold exit_status in Hexit. destruct (p_main s); congruence. }
    split; [rewrite (pi_stderr _ _ Hinv), Hmain; reflexivity|].
    split; [apply (pi_failed _ _ Hinv); rewrite Hmain; reflexivity|].
    intros Hin. rewrite (completed_only_after _ _ Hparse Hin) in Hph.
    simpl in Hph. rewrite Hmain in Hph. discriminate.
  - intros (i & Hi & Hfail).
    assert (Hnot : main_after (p_main s) = false).
    { destruct (main_after (p_main s)) eqn:E; [|reflexivity].
      rewrite (pi_created _ _ Hinv i) in Hfail; [discriminate|].
      destruct (p_main s); try discriminate; exact Hi. }
    split.
    + intros Hexit. unfold exit_status in Hexit.
      destruct (p_main s); try discriminate.
    + intros Hin. rewrite (completed_only_after _ _ Hparse Hin) in Hph.
      simpl in Hph. congruence.
Qed.

Lemma main_returns_1_when_create_fails_witness :
  let s := run (fun i => negb (i =? 1)%nat) (replicate 7 Main)
             (boot (mk_lock false false 0)) in
  (p_stderr s = [Failed_to_create_thread]
   /\ (exists i, (i < 3)%nat /\ negb (i =? 1)%nat = false)
   /\ ~ In All_threads_completed (p_stdout s))
  /\ (exit_status s <> Some 0 /\ ~ In All_threads_completed (p_stdout s)).
Proof.
  split.
  - apply (proj1 (main_returns_1_when_create_fails (fun i => negb (i =? 1)%nat)
                    (mk_lock false false 0) (replicate 7 Main))).
    reflexivity.
  - apply (proj2 (main_returns_1_when_create_fails (fun i => negb (i =? 1)%nat)
                    (mk_lock false false 0) (replicate 7 Main))).
    exists 1%nat. split; [lia|reflexivity].
Defined.

Lemma run_app ok (a b : list who) (s : process) :
  run ok (a ++ b) s = run ok b (run ok a s).
Proof. revert s. induction a as [|x a IH]; intros s; simpl; auto. Qed.

(** X9: Whatever the outcome of each [pthread_create] and the initial
    content of [lock], [main] can return.  When creation [i] is the first
    to fail, [main] executing alone its [2 * i + 5] statements up to there
    (lines 95 and 97, [i] times lines 101 and 107, then lines 101, 102 and
    103) ends with status 1: the threads before [i] are created and have
    not run, thread [i] and the later ones were never created, standard
    output holds only ["Starting threads..."] and standard error the one
    [perror] line.  When no creation fails, [main] creating the three
    threads, each thread then running [thread_function] to its end in
    turn, and [main] joining them ends with status 0: the three threads
    have returned, the lock is free, standard error is empty and standard
    output holds the eight lines in order. *)
Theorem main_can_always_return (ok : nat -> bool) (l : simple_lock_t) :
  match first_failure ok with
  | Some i =>
      let s := run ok (replicate (2 * i + 5) Main) (boot l) in
      (i < 3)%nat
      /\ ok i = false
      /\ exit_status s = Some 1
      /\ p_stdout s = [Starting_threads]
      /\ p_stderr s = [Failed_to_create_thread]
      /\ p_workers s = map (fun j => mk_worker T71 j 0) (seq 0 i)
                       ++ replicate (3 - i) (mk_worker T_unborn 0 0)
  | None =>
      let s := run ok main_then_threads (boot l) in
      exit_status s = Some 0
      /\ p_stdout s = [ Starting_threads;
                        Hello_from_thread 1; Thread_releasing 1;
                        Hello_from_thread 2; Thread_releasing 2;
                        Hello_from_thread 3; Thread_releasing 3;
                        All_threads_completed ]
      /\ p_stderr s = []
      /\ p_workers s = [mk_worker T_done 0 1; mk_worker T_done 1 2; mk_worker T_done 2 3]
      /\ p_lock s = mk_lock false false 0
  end.
Proof.
  unfold first_failure.
  destruct (ok 0%nat) eqn:H0; [destruct (ok 1%nat) eqn:H1; [destruct (ok 2%nat) eqn:H2|]|].
  - unfold main_then_threads. rewrite run_app.
    assert (Hinit : run ok (replicate 8 Main) (boot l)
                    = mk_proc (mk_lock false false 0) [Starting_threads] [] (M112 0)
                        [mk_worker T71 0 0; mk_worker T71 1 0; mk_worker T71 2 0]).
    { cbn. rewrite H0. cbn. rewrite H1. cbn. rewrite H2. reflexivity. }
    rewrite Hinit. vm_compute. repeat split.
  - assert (Hrun : run ok (replicate (2 * 2 + 5) Main) (boot l)
                   = mk_proc (mk_lock false false 0) [Starting_threads]
                       [Failed_to_create_thread] Exited_1
                       [mk_worker T71 0 0; mk_worker T71 1 0; mk_worker T_unborn 0 0]).
    { cbn. rewrite H0. cbn. rewrite H1. cbn. rewrite H2. reflexivity. }
    cbv zeta. rewrite Hrun. repeat split; [lia|exact H2].
  - assert (Hrun : run ok (replicate (2 * 1 + 5) Main) (boot l)
                   = mk_proc (mk_lock false false 0) [Starting_threads]
                       [Failed_to_create_thread] Exited_1
                       [mk_worker T71 0 0; mk_worker T_unborn 0 0; mk_worker T_unborn 0 0]).
    { cbn. rewrite H0. cbn. rewrite H1. reflexivity. }
    cbv zeta. rewrite Hrun. repeat split; [lia|exact H1].
  - assert (Hrun : run ok (replicate (2 * 0 + 5) Main) (boot l)
                   = mk_proc (mk_lock false false 0) [Starting_threads]
                       [Failed_to_create_thread] Exited_1
                       [mk_worker T_unborn 0 0; mk_worker T_unborn 0 0; mk_worker T_unborn 0 0]).
    { cbn. rewrite H0. reflexivity. }
    cbv zeta. rewrite Hrun. repeat split; [lia|exact H0].
Qed.

(* ================================================================== *)
(** * The program, whatever its threads find in the lock *)

Lemma releasing_ids_snoc (log : list message) (m : message) :
  releasing_ids (log ++ [m])
  = releasing_ids log ++ match is_releasing m with Some id => [id] | None => [] end.
Proof.
  unfold releasing_ids. rewrite omap_app. simpl. destruct (is_releasing m); reflexivity.
Qed.

Lemma hello_first_snoc (log : list message) (m : message) :
  forall seen,
    hello_first seen (log ++ [m])
    = hello_first seen log
      && match m with
         | Thread_releasing id => existsb (Z.eqb id) (rev (hello_ids log) ++ seen)
         | _ => true
         end.
Proof.
  induction log as [|a log IH]; intros seen; simpl.
  - destruct m; simpl; rewrite ?andb_true_r; reflexivity.
  - destruct a; simpl; rewrite IH; simpl; try reflexivity.
    + rewrite <- app_assoc. reflexivity.
    + rewrite andb_assoc. reflexivity.
Qed.

Lemma proc_step_seeing_cases ok x s s' :
  proc_step_seeing ok x s = Some s' ->
  exit_status s = None
  /\ ((fst x = Main /\ main_step ok s = Some s')
      \/ exists i w w' l' out',
          fst x = Thread i
          /\ p_workers s !! i = Some w
          /\ tf_step w (snd x) (p_stdout s) = Some (w', l', out')
          /\ s' = mk_proc (p_lock s) out' (p_stderr s) (p_main s)
                    (<[i := w']> (p_workers s))).
Proof.
  unfold proc_step_seeing. destruct (exit_status s); [discriminate|].
  intros H. split; [reflexivity|]. destruct (fst x) as [|i]; [left; auto|right].
  destruct (p_workers s !! i) as [w|] eqn:Hlk; [|discriminate].
  destruct (tf_step w (snd x) (p_stdout s)) as [[[w' l'] out']|] eqn:E;
    [|discriminate].
  inversion H; subst. exists i, w, w', l', out'. auto.
Qed.

Lemma flowing_thread_alive ok s i w seen w' l' out' :
  flow_inv ok s ->
  p_workers s !! i = Some w ->
  tf_step w seen (p_stdout s) = Some (w', l', out') ->
  (i < 3)%nat
  /\ main_before (p_main s) = false /\ main_after (p_main s) = false
  /\ ~ not_yet_created (p_main s) i /\ ~ joined (p_main s) i.
Proof.
  intros Hinv Hlk Hstep.
  pose proof (proj1 (Forall_lookup _ _) (fi_wf _ _ Hinv) i w Hlk) as Hwf.
  destruct (tf_step_thread _ _ _ _ _ _ Hwf Hstep) as (Hu & Hd & _).
  assert (Hn : ~ not_yet_created (p_main s) i).
  { intros H. exact (Hu (fi_unborn _ _ Hinv i w Hlk H)). }
  assert (Hj : ~ joined (p_main s) i).
  { intros H. exact (Hd (fi_joined _ _ Hinv i w Hlk H)). }
  split.
  - rewrite <- (fi_length _ _ Hinv). eapply lookup_lt_Some; exact Hlk.
  - destruct (p_main s); simpl in *; repeat split; auto; try discriminate;
      try (exfalso; apply Hn; exact I); try (exfalso; apply Hj; exact I).
Qed.

(** A thread prints its second line once, with its own number. *)
Lemma tf_step_releasing (ws : list worker_t) i w w' l l' out out' :
  ws !! i = Some w -> tf_wf w ->
  tf_step w l out = Some (w', l', out') ->
  (i < 3)%nat ->
  (w_pc w <> T_unborn -> w_pc w <> T71 -> thread_id w = Z.of_nat i + 1) ->
  (forall j wj, ws !! j = Some wj ->
                count_occ Z.eq_dec (releasing_ids out) (Z.of_nat j + 1) = tf_past_82 wj) ->
  Forall (fun id => 1 <= id <= 3) (releasing_ids out) ->
  (forall j wj, <[i := w']> ws !! j = Some wj ->
                count_occ Z.eq_dec (releasing_ids out') (Z.of_nat j + 1) = tf_past_82 wj)
  /\ Forall (fun id => 1 <= id <= 3) (releasing_ids out').
Proof.
  intros Hlk Hwf H Hi Hid Hcount Hrange.
  pose proof (Hcount i w Hlk) as Hme.
  assert (Hothers : forall j wj, j <> i -> <[i := w']> ws !! j = Some wj ->
                                 ws !! j = Some wj).
  { intros j wj Hne Hj. rewrite list_lookup_insert_ne in Hj by auto. exact Hj. }
  assert (Hmine : forall j wj, <[i := w']> ws !! j = Some wj ->
                               j = i -> wj = w').
  { intros j wj Hj ->. rewrite list_lookup_insert_eq in Hj
      by (eapply lookup_lt_Some; exact Hlk). congruence. }
  tf_cases H Hwf; rewrite ?releasing_ids_snoc; simpl; rewrite ?app_nil_r;
    unfold tf_past_82 in Hme; simpl in Hme, Hid;
    try (split; [|exact Hrange]; intros j wj Hj;
         destruct (decide (j = i)) as [->|Hne];
         [rewrite (Hmine _ _ Hj eq_refl); exact Hme|exact (Hcount _ _ (Hothers _ _ Hne Hj))]).
  specialize (Hid ltac:(discriminate) ltac:(discriminate)). subst. split.
  - intros j wj Hj. rewrite count_occ_app; simpl.
    destruct (decide (j = i)) as [->|Hne].
    + rewrite (Hmine _ _ Hj eq_refl), Hme.
      destruct (Z.eq_dec (Z.of_nat i + 1) (Z.of_nat i + 1)); [reflexivity|congruence].
    + rewrite (Hcount _ _ (Hothers _ _ Hne Hj)).
      destruct (Z.eq_dec (Z.of_nat i + 1) (Z.of_nat j + 1)); [lia|lia].
  - apply Forall_app. split; [exact Hrange|]. repeat constructor; lia.
Qed.

Lemma releasing_ids_not_releasing (out : list message) (m : message) :
  is_releasing m = None -> releasing_ids (out ++ [m]) = releasing_ids out.
Proof. intros H. rewrite releasing_ids_snoc, H. apply app_nil_r. Qed.

(** What a statement of [thread_function] prints. *)
Lemma tf_step_out w l out w' l' out' :
  tf_step w l out = Some (w', l', out') ->
  (out' = out /\ w_pc w <> T77 /\ w_pc w <> T82)
  \/ (w_pc w = T77 /\ out' = out ++ [Hello_from_thread (thread_id w)])
  \/ (w_pc w = T82 /\ out' = out ++ [Thread_releasing (thread_id w)]).
Proof.
  destruct w as [c a id]. unfold tf_step; simpl.
  destruct c as [| |p| | | | | |]; intros H; try discriminate;
    try (inversion H; subst; auto; left; repeat split; congruence).
  destruct (lock_call_step p l) as [[[] ?]|]; inversion H; subst;
    left; repeat split; congruence.
Qed.

Lemma framed_snoc (c : main_pc) (out : list message) (m : message) :
  main_before c = false -> main_after c = false -> section_line m = true ->
  framed c out -> framed c (out ++ [m]).
Proof.
  unfold framed. intros -> -> Hm (body & Hb & ->).
  exists (body ++ [m]). split.
  - rewrite forallb_app, Hb. simpl. rewrite Hm. reflexivity.
  - rewrite !app_nil_r. reflexivity.
Qed.

Lemma framed_same (c c' : main_pc) (out : list message) :
  main_before c' = main_before c -> main_after c' = main_after c ->
  framed c out -> framed c' out.
Proof. unfold framed. intros -> ->. auto. Qed.

(** The flow invariant is kept by every statement of a thread, whatever
    the thread finds in the lock. *)
Lemma flow_inv_thread_step ok s i w seen w' l' out' :
  flow_inv ok s ->
  p_workers s !! i = Some w ->
  tf_step w seen (p_stdout s) = Some (w', l', out') ->
  flow_inv ok (mk_proc (p_lock s) out' (p_stderr s) (p_main s)
                 (<[i := w']> (p_workers s))).
Proof.
  intros Hinv Hlk Hstep.
  pose proof (proj1 (Forall_lookup _ _) (fi_wf _ _ Hinv) i w Hlk) as Hwf.
  destruct (tf_step_thread _ _ _ _ _ _ Hwf Hstep)
    as (Hu & Hd & Hu' & H71' & Harg & Hwf' & Hid71 & Hid).
  destruct (flowing_thread_alive _ _ _ _ _ _ _ _ Hinv Hlk Hstep)
    as (Hi & Hb & Ha & Hn & Hj).
  destruct (fi_ids _ _ Hinv i w Hlk Hu) as [Hargi Hidi].
  destruct (tf_step_hello _ _ _ _ _ _ _ _ Hlk Hwf Hstep Hi
              (fun _ => Hidi) (fi_hello _ _ Hinv) (fi_hello_range _ _ Hinv))
    as [Hhello Hrange].
  destruct (tf_step_releasing _ _ _ _ _ _ _ _ Hlk Hwf Hstep Hi
              (fun _ => Hidi) (fi_releasing _ _ Hinv) (fi_releasing_range _ _ Hinv))
    as [Hrel Hrelrange].
  pose proof (tf_step_out _ _ _ _ _ _ Hstep) as Hout.
  constructor; cbn [p_lock p_stdout p_stderr p_main p_workers].
  - rewrite length_insert. exact (fi_length _ _ Hinv).
  - exact (fi_bound _ _ Hinv).
  - apply Forall_insert; [exact (fi_wf _ _ Hinv)|exact Hwf'].
  - intros j wj Hlj Hborn.
    destruct (decide (j = i)) as [->|Hne].
    + rewrite list_lookup_insert_eq in Hlj by (eapply lookup_lt_Some; exact Hlk).
      inversion Hlj; subst wj. split; [congruence|]. intros _.
      destruct (w_pc w) eqn:Epc;
        try (rewrite Hid by congruence; apply Hidi; congruence).
      rewrite (Hid71 eq_refl), Hargi.
      destruct i as [|[|[|i]]]; [reflexivity|reflexivity|reflexivity|lia].
    + rewrite list_lookup_insert_ne in Hlj by auto.
      exact (fi_ids _ _ Hinv j wj Hlj Hborn).
  - intros j wj Hlj Hnot.
    destruct (decide (j = i)) as [->|Hne]; [contradiction|].
    rewrite list_lookup_insert_ne in Hlj by auto.
    exact (fi_unborn _ _ Hinv j wj Hlj Hnot).
  - intros j wj Hlj Hjoin.
    destruct (decide (j = i)) as [->|Hne]; [contradiction|].
    rewrite list_lookup_insert_ne in Hlj by auto.
    exact (fi_joined _ _ Hinv j wj Hlj Hjoin).
  - exact (fi_created _ _ Hinv).
  - exact (fi_stderr _ _ Hinv).
  - destruct Hout as [(-> & _)|[(_ & ->)|(_ & ->)]];
      [exact (fi_frame _ _ Hinv)| |];
      apply framed_snoc; auto; exact (fi_frame _ _ Hinv).
  - exact Hhello.
  - exact Hrel.
  - exact Hrange.
  - exact Hrelrange.
  - destruct Hout as [(-> & _)|[(_ & ->)|(H82 & ->)]];
      [exact (fi_order _ _ Hinv)| |];
      rewrite hello_first_snoc, (fi_order _ _ Hinv); [reflexivity|].
    simpl. rewrite app_nil_r.
    rewrite (Hidi ltac:(congruence)).
    apply existsb_exists. exists (Z.of_nat i + 1). split; [|apply Z.eqb_refl].
    apply in_rev. rewrite rev_involutive.
    apply (count_occ_In Z.eq_dec).
    rewrite (fi_hello _ _ Hinv i w Hlk). unfold tf_past_77. rewrite H82. lia.
Qed.

Ltac open_flow Hinv :=
  destruct Hinv as [Hlen Hbound Hwf Hids Hunborn Hjoined Hcreated
                      Hstderr Hframe Hhello Hrel Hrange Hrelrange Horder].

Lemma framed_start : framed (create_loop 0) ([] ++ [Starting_threads]).
Proof. exists []. split; reflexivity. Qed.

Lemma framed_end (body_out : list message) :
  framed M115 body_out -> framed M117 (body_out ++ [All_threads_completed]).
Proof.
  unfold framed; simpl. intros (body & Hb & ->). exists body.
  split; [exact Hb|]. rewrite app_nil_r. reflexivity.
Qed.

(** The flow invariant is kept by every statement of [main]. *)
Lemma flow_inv_main_step ok s s' :
  flow_inv ok s -> main_step ok s = Some s' -> flow_inv ok s'.
Proof.
  intros Hinv Hstep. constructor.
  - open_flow Hinv. main_cases Hstep; simpl; rewrite ?length_insert; exact Hlen.
  - open_flow Hinv. main_cases Hstep; simpl; auto; loop_index; simpl; lia.
  - open_flow Hinv. main_cases Hstep; simpl; auto.
    apply Forall_insert; [exact Hwf|exact I].
  - open_flow Hinv. main_cases Hstep; cbn [p_workers]; auto.
    intros j w Hj Hborn. destruct (decide (j = i)) as [->|Hne].
    + rewrite list_lookup_insert_eq in Hj by (simpl in Hbound; lia).
      inversion Hj; subst. simpl. split; [reflexivity|congruence].
    + rewrite list_lookup_insert_ne in Hj by auto. exact (Hids j w Hj Hborn).
  - open_flow Hinv. main_cases Hstep; cbn [p_workers p_main];
      try (intros j w Hj []; fail);
      try (intros j w Hj Hn; apply (Hunborn j w Hj); simpl in *; auto; lia).
    + intros j w Hj Hn. simpl in Hn.
      rewrite list_lookup_insert_ne in Hj by lia.
      apply (Hunborn j w Hj). simpl. lia.
    + loop_index; simpl; intros j w Hj Hn; try contradiction;
        apply (Hunborn j w Hj); simpl; lia.
    + loop_index; simpl; intros j w Hj Hn; contradiction.
  - open_flow Hinv. main_cases Hstep; cbn [p_workers p_main];
      try (intros j w Hj []; fail);
      try (intros j w Hj Hn; apply (Hjoined j w Hj); simpl in *; auto; lia).
    + loop_index; simpl; intros j w Hj Hn; first [contradiction|lia].
    + assert (Hall : forall j w, ws !! j = Some w -> (j <= i)%nat -> w_pc w = T_done).
      { intros j w Hj Hle. destruct (decide (j = i)) as [->|Hne].
        - congruence.
        - apply (Hjoined j w Hj). simpl. lia. }
      loop_index; simpl; intros j w Hj Hn; apply (Hall j w Hj); try lia.
      apply lookup_lt_Some in Hj. lia.
  - open_flow Hinv. main_cases Hstep; cbn [p_main];
      try (intros j []; fail);
      try (intros j Hc; apply Hcreated; simpl in *; auto; lia).
    + intros j Hc. simpl in Hc. destruct (decide (j = i)) as [->|Hne];
        [exact Hok|apply Hcreated; simpl; lia].
    + loop_index; simpl; intros j Hc; apply Hcreated; simpl; lia.
    + loop_index; simpl; intros j Hc; apply Hcreated; simpl; lia.
  - open_flow Hinv. main_cases Hstep; cbn [p_main p_stderr] in *;
      try (loop_index; simpl); try (rewrite Hstderr); reflexivity.
  - (* the frame of standard output *)
    open_flow Hinv.
    main_cases Hstep; cbn [p_main p_stdout] in *;
      try (apply framed_end; exact Hframe);
      try (unfold framed in Hframe; simpl in Hframe; subst out; exact framed_start);
      try (loop_index);
      try (eapply framed_same; [| |exact Hframe]; reflexivity).
  - (* first lines *)
    open_flow Hinv.
    main_cases Hstep; cbn [p_main p_stdout p_workers] in *;
      rewrite ?hello_ids_not_hello by reflexivity; try exact Hhello.
    intros j w Hj. destruct (decide (j = i)) as [->|Hne].
    + rewrite list_lookup_insert_eq in Hj by (simpl in Hbound; lia).
      inversion Hj; subst w.
      assert (Hslot : exists wi, ws !! i = Some wi /\ w_pc wi = T_unborn).
      { destruct (lookup_lt_is_Some_2 ws i) as [wi Hi]; [simpl in Hbound; lia|].
        exists wi. split; [exact Hi|]. eapply Hunborn; [exact Hi|simpl; lia]. }
      destruct Hslot as (wi & Hi & Hu).
      rewrite (Hhello i _ Hi). unfold tf_past_77. rewrite Hu. reflexivity.
    + rewrite list_lookup_insert_ne in Hj by auto. exact (Hhello j w Hj).
  - (* second lines *)
    open_flow Hinv.
    main_cases Hstep; cbn [p_main p_stdout p_workers] in *;
      rewrite ?releasing_ids_not_releasing by reflexivity; try exact Hrel.
    intros j w Hj. destruct (decide (j = i)) as [->|Hne].
    + rewrite list_lookup_insert_eq in Hj by (simpl in Hbound; lia).
      inversion Hj; subst w.
      assert (Hslot : exists wi, ws !! i = Some wi /\ w_pc wi = T_unborn).
      { destruct (lookup_lt_is_Some_2 ws i) as [wi Hi]; [simpl in Hbound; lia|].
        exists wi. split; [exact Hi|]. eapply Hunborn; [exact Hi|simpl; lia]. }
      destruct Hslot as (wi & Hi & Hu).
      rewrite (Hrel i _ Hi). unfold tf_past_82. rewrite Hu. reflexivity.
    + rewrite list_lookup_insert_ne in Hj by auto. exact (Hrel j w Hj).
  - open_flow Hinv.
    main_cases Hstep; cbn [p_main p_stdout p_workers] in *;
      rewrite ?hello_ids_not_hello by reflexivity; exact Hrange.
  - open_flow Hinv.
    main_cases Hstep; cbn [p_main p_stdout p_workers] in *;
      rewrite ?releasing_ids_not_releasing by reflexivity; exact Hrelrange.
  - open_flow Hinv.
    main_cases Hstep; cbn [p_main p_stdout p_workers] in *;
      rewrite ?hello_first_snoc, ?Horder; try reflexivity; exact Horder.
Qed.

Lemma flow_inv_boot ok l : flow_inv ok (boot l).
Proof.
  assert (Hslots : forall j w,
             replicate 3 (mk_worker T_unborn 0 0) !! j = Some w ->
             w = mk_worker T_unborn 0 0).
  { intros j w H. apply lookup_replicate in H as [-> _]. reflexivity. }
  constructor; cbn [boot p_lock p_stdout p_stderr p_main p_workers].
  - reflexivity.
  - exact I.
  - repeat constructor.
  - intros j w Hj Hb. rewrite (Hslots j w Hj) in Hb. contradiction.
  - intros j w Hj _. rewrite (Hslots j w Hj). reflexivity.
  - intros j w Hj [].
  - intros j [].
  - reflexivity.
  - reflexivity.
  - intros j w Hj. rewrite (Hslots j w Hj). reflexivity.
  - intros j w Hj. rewrite (Hslots j w Hj). reflexivity.
  - constructor.
  - constructor.
  - reflexivity.
Qed.

Lemma flow_inv_run ok l sched : flow_inv ok (run_seeing ok sched (boot l)).
Proof.
  generalize (flow_inv_boot ok l). generalize (boot l).
  induction sched as [|x sched IH]; intros s Hs; simpl; [exact Hs|].
  apply IH. destruct (proc_step_seeing ok x s) as [s'|] eqn:E; simpl; [|exact Hs].
  destruct (proc_step_seeing_cases _ _ _ _ E)
    as [_ [[_ Hm]|(i & w & w' & l' & out' & _ & Hlk & Hstep & ->)]].
  - exact (flow_inv_main_step _ _ _ Hs Hm).
  - exact (flow_inv_thread_step _ _ _ _ _ _ _ _ Hs Hlk Hstep).
Qed.

Lemma section_lines_length (body : list message) :
  forallb section_line body = true ->
  length body = (length (hello_ids body) + length (releasing_ids body))%nat.
Proof.
  induction body as [|m body IH]; simpl; [reflexivity|].
  destruct m; simpl; try discriminate; intros H; rewrite (IH H); lia.
Qed.

Lemma permutation_of_thread_ids (ids : list Z) :
  Forall (fun id => 1 <= id <= 3) ids ->
  (forall j, (j < 3)%nat -> count_occ Z.eq_dec ids (Z.of_nat j + 1) = 1%nat) ->
  Permutation ids thread_ids.
Proof.
  intros Hrange Hcount.
  apply (proj2 (Permutation_count_occ Z.eq_dec _ _)). intros x.
  destruct (decide (1 <= x <= 3)) as [Hx|Hx].
  - specialize (Hcount (Z.to_nat (x - 1)) ltac:(lia)).
    replace (Z.of_nat (Z.to_nat (x - 1)) + 1) with x in Hcount by lia.
    rewrite Hcount.
    assert (Hcase : x = 1 \/ x = 2 \/ x = 3) by lia.
    destruct Hcase as [-> | [-> | ->]]; reflexivity.
  - assert (Hout : ~ In x ids).
    { intros Hin. apply Hx. exact (proj1 (List.Forall_forall _ _) Hrange x Hin). }
    apply (proj1 (count_occ_not_In Z.eq_dec _ _)) in Hout. rewrite Hout.
    symmetry. apply (proj1 (count_occ_not_In Z.eq_dec _ _)).
    intros [H|[H|[H|[]]]]; lia.
Qed.


(** X7: When [main] returns 0, whatever the threads found in the lock:
    the three creations have succeeded, the three threads have returned,
    nothing was written to standard error, and standard output is
    ["Starting threads..."], then six lines of the threads, then
    ["All threads have completed"]; the six lines are the ["Hello"] line
    and the ["releasing"] line of each of the thread numbers 1, 2, 3, once
    each, every ["releasing"] line after the ["Hello"] line of the same
    thread. *)
Theorem main_returns_0_after_all_threads
  (ok : nat -> bool) (l : simple_lock_t) (sched : list (who * simple_lock_t)) :
  let s := run_seeing ok sched (boot l) in
  exit_status s = Some 0 ->
  ok 0%nat = true /\ ok 1%nat = true /\ ok 2%nat = true
  /\ Forall (fun w => w_pc w = T_done) (p_workers s)
  /\ p_stderr s = []
  /\ exists body,
      p_stdout s = Starting_threads :: body ++ [All_threads_completed]
      /\ length body = 6%nat
      /\ Permutation (hello_ids body) thread_ids
      /\ Permutation (releasing_ids body) thread_ids
      /\ hello_first [] body = true.
Proof.
  intros s Hexit. pose proof (flow_inv_run ok l sched) as Hinv. fold s in Hinv.
  assert (Hmain : p_main s = Exited_0).
  { unfold exit_status in Hexit. destruct (p_main s); congruence. }
  assert (Hdone : forall j w, p_workers s !! j = Some w -> w_pc w = T_done).
  { intros j w Hj. apply (fi_joined _ _ Hinv j w Hj). rewrite Hmain. exact I. }
  assert (Hok : forall j, (j < 3)%nat -> ok j = true).
  { intros j Hj. apply (fi_created _ _ Hinv). rewrite Hmain. exact Hj. }
  split; [apply Hok; lia|]. split; [apply Hok; lia|]. split; [apply Hok; lia|].
  split; [apply Forall_lookup; exact Hdone|].
  split; [rewrite (fi_stderr _ _ Hinv), Hmain; reflexivity|].
  pose proof (fi_frame _ _ Hinv) as Hframe. unfold framed in Hframe.
  rewrite Hmain in Hframe. simpl in Hframe. destruct Hframe as (body & Hlines & Hout).
  assert (Hh : hello_ids (p_stdout s) = hello_ids body).
  { rewrite Hout. change (hello_ids (Starting_threads :: ?x)) with (hello_ids x).
    apply hello_ids_not_hello. reflexivity. }
  assert (Hr : releasing_ids (p_stdout s) = releasing_ids body).
  { rewrite Hout.
    change (releasing_ids (Starting_threads :: ?x)) with (releasing_ids x).
    apply releasing_ids_not_releasing. reflexivity. }
  assert (Hph : Permutation (hello_ids body) thread_ids).
  { rewrite <- Hh. apply permutation_of_thread_ids; [exact (fi_hello_range _ _ Hinv)|].
    intros j Hj.
    destruct (lookup_lt_is_Some_2 (p_workers s) j) as [w Hw];
      [rewrite (fi_length _ _ Hinv); exact Hj|].
    rewrite (fi_hello _ _ Hinv j w Hw). unfold tf_past_77.
    rewrite (Hdone j w Hw). reflexivity. }
  assert (Hpr : Permutation (releasing_ids body) thread_ids).
  { rewrite <- Hr. apply permutation_of_thread_ids; [exact (fi_releasing_range _ _ Hinv)|].
    intros j Hj.
    destruct (lookup_lt_is_Some_2 (p_workers s) j) as [w Hw];
      [rewrite (fi_length _ _ Hinv); exact Hj|].
    rewrite (fi_releasing _ _ Hinv j w Hw). unfold tf_past_82.
    rewrite (Hdone j w Hw). reflexivity. }
  exists body. split; [exact Hout|]. split; [|split; [exact Hph|split; [exact Hpr|]]].
  - rewrite (section_lines_length _ Hlines).
    rewrite (Permutation_length Hph), (Permutation_length Hpr). reflexivity.
  - pose proof (fi_order _ _ Hinv) as Ho. rewrite Hout in Ho.
    change (hello_first [] (Starting_threads :: ?x)) with (hello_first [] x) in Ho.
    rewrite hello_first_snoc in Ho. apply andb_true_iff in Ho. exact (proj1 Ho).
Qed.

Lemma main_returns_0_after_all_threads_witness :
  p_stdout (run_seeing (fun _ => true) overlapping_sections (boot (mk_lock true true 5)))
  = Starting_threads
      :: [ Hello_from_thread 1; Hello_from_thread 2; Thread_releasing 1;
           Hello_from_thread 3; Thread_releasing 3; Thread_releasing 2 ]
      ++ [All_threads_completed]
  /\ ((fun _ : nat => true) 0%nat = true /\ (fun _ : nat => true) 1%nat = true
      /\ (fun _ : nat => true) 2%nat = true
      /\ Forall (fun w => w_pc w = T_done)
           (p_workers (run_seeing (fun _ => true) overlapping_sections
                         (boot (mk_lock true true 5))))
      /\ p_stderr (run_seeing (fun _ => true) overlapping_sections
                     (boot (mk_lock true true 5))) = []
      /\ exists body,
          p_stdout (run_seeing (fun _ => true) overlapping_sections
                      (boot (mk_lock true true 5)))
          = Starting_threads :: body ++ [All_threads_completed]
          /\ length body = 6%nat
          /\ Permutation (hello_ids body) thread_ids
          /\ Permutation (releasing_ids body) thread_ids
          /\ hello_first [] body = true).
Proof.
  split; [vm_compute; reflexivity|].
  apply (main_returns_0_after_all_threads (fun _ => true) (mk_lock true true 5)
           overlapping_sections).
  vm_compute. reflexivity.
Defined.


(** Every interleaving of [proc_step] is among the executions of
    [proc_step_seeing]: the one in which each thread finds in the lock
    what the previous statement left. *)
Lemma main_step_same_flow ok s s' :
  same_flow s s' ->
  match main_step ok s, main_step ok s' with
  | Some s1, Some s1' => same_flow s1 s1'
  | None, None => True
  | _, _ => False
  end.
Proof.
  destruct s as [l out err mp ws], s' as [l' out' err' mp' ws'].
  unfold same_flow; simpl. intros (-> & -> & -> & ->).
  unfold main_step; simpl.
  destruct mp' as [ | |i| | |i|i| | | | ]; simpl; auto.
  - destruct (ok i); simpl; auto.
  - destruct (ws' !! i) as [w|]; [|exact I]. destruct (w_pc w); simpl; auto.
Qed.

Lemma proc_step_same_flow ok x s s' :
  same_flow s s' ->
  match proc_step ok x s, proc_step_seeing ok (x, p_lock s) s' with
  | Some s1, Some s1' => same_flow s1 s1'
  | None, None => True
  | _, _ => False
  end.
Proof.
  intros Hs. pose proof (main_step_same_flow ok s s' Hs) as Hm.
  destruct Hs as (Ho & He & Hp & Hw).
  unfold proc_step, proc_step_seeing, exit_status. rewrite <- Hp.
  destruct (p_main s) eqn:E; simpl; try exact I;
    (destruct x as [|k]; [exact Hm|]);
    rewrite <- Hw, <- Ho;
    (destruct (p_workers s !! k) as [w|]; [|exact I]);
    (destruct (tf_step w (p_lock s) (p_stdout s)) as [[[w' l'] out']|]; [|exact I]);
    unfold same_flow; simpl; auto.
Qed.

Lemma interleavings_are_among_run_seeing ok (sched : list who) (s s' : process) :
  same_flow s s' ->
  exists sched', same_flow (run ok sched s) (run_seeing ok sched' s').
Proof.
  revert s s'. induction sched as [|x sched IH]; intros s s' Hs.
  - exists []. exact Hs.
  - pose proof (proc_step_same_flow ok x s s' Hs) as H. simpl.
    destruct (proc_step ok x s) as [s1|] eqn:E1,
             (proc_step_seeing ok (x, p_lock s) s') as [s1'|] eqn:E2;
      try contradiction.
    + destruct (IH s1 s1' H) as (sched' & Hr).
      exists ((x, p_lock s) :: sched'). simpl. rewrite E2. exact Hr.
    + destruct (IH s s' Hs) as (sched' & Hr).
      exists ((x, p_lock s) :: sched'). simpl. rewrite E2. exact Hr.
Qed.

Lemma ids_NoDup (ids : list Z) (ws : list worker_t) (past : worker_t -> nat) :
  length ws = 3%nat ->
  (forall w, (past w <= 1)%nat) ->
  Forall (fun id => 1 <= id <= 3) ids ->
  (forall j w, ws !! j = Some w ->
               count_occ Z.eq_dec ids (Z.of_nat j + 1) = past w) ->
  NoDup ids.
Proof.
  intros Hlen Hpast Hrange Hcount. apply NoDup_ListNoDup.
  apply (proj2 (NoDup_count_occ Z.eq_dec _)). intros x.
  destruct (in_dec Z.eq_dec x ids) as [Hin|Hout].
  - pose proof (proj1 (List.Forall_forall _ _) Hrange x Hin) as Hx.
    simpl in Hx.
    destruct (lookup_lt_is_Some_2 ws (Z.to_nat (x - 1))) as [w Hw].
    { rewrite Hlen. lia. }
    pose proof (Hcount _ _ Hw) as Hc.
    replace (Z.of_nat (Z.to_nat (x - 1)) + 1) with x in Hc by lia.
    rewrite Hc. apply Hpast.
  - apply (proj1 (count_occ_not_In Z.eq_dec _ _)) in Hout. lia.
Qed.

(** X5: In every state the process can reach, whatever the threads find in
    the lock and whatever creations fail: standard output is empty, or
    ["Starting threads..."] followed by lines of the threads only, with
    ["All threads have completed"] at most as the last line; no thread
    number has two ["Hello"] lines or two ["releasing"] lines, the numbers
    are among 1, 2, 3, and every ["releasing"] line comes after the
    ["Hello"] line of the same thread. *)
Theorem every_thread_prints_hello_then_releasing
  (ok : nat -> bool) (l : simple_lock_t) (sched : list (who * simple_lock_t)) :
  let out := p_stdout (run_seeing ok sched (boot l)) in
  (out = []
   \/ exists body,
       forallb section_line body = true
       /\ (out = Starting_threads :: body
           \/ out = Starting_threads :: body ++ [All_threads_completed]))
  /\ NoDup (hello_ids out) /\ NoDup (releasing_ids out)
  /\ Forall (fun id => 1 <= id <= 3) (hello_ids out)
  /\ Forall (fun id => 1 <= id <= 3) (releasing_ids out)
  /\ hello_first [] out = true.
Proof.
  intros out. pose proof (flow_inv_run ok l sched) as Hinv.
  split; [|split; [|split; [|split; [|split]]]].
  - pose proof (fi_frame _ _ Hinv) as Hf. fold out in Hf. unfold framed in Hf.
    destruct (main_before _); [left; exact Hf|right].
    destruct Hf as (body & Hb & Ho). exists body. split; [exact Hb|].
    destruct (main_after _); [right; exact Ho|left].
    rewrite Ho, app_nil_r. reflexivity.
  - apply (ids_NoDup _ _ tf_past_77 (fi_length _ _ Hinv));
      [|exact (fi_hello_range _ _ Hinv)|exact (fi_hello _ _ Hinv)].
    intros w. unfold tf_past_77. destruct (w_pc w); lia.
  - apply (ids_NoDup _ _ tf_past_82 (fi_length _ _ Hinv));
      [|exact (fi_releasing_range _ _ Hinv)|exact (fi_releasing _ _ Hinv)].
    intros w. unfold tf_past_82. destruct (w_pc w); lia.
  - exact (fi_hello_range _ _ Hinv).
  - exact (fi_releasing_range _ _ Hinv).
  - exact (fi_order _ _ Hinv).
Qed.

Lemma interleavings_seen ok (l : simple_lock_t) (sched : list who) :
  exists sched',
    same_flow (run ok sched (boot l)) (run_seeing ok sched' (boot l)).
Proof. apply interleavings_are_among_run_seeing. repeat split. Qed.

(* ================================================================== *)
(** * No execution of the lock gets stuck *)

Lemma total_member (w : thread -> nat) (ts : list thread) :
  (1 <= total w ts)%nat -> exists i t, ts !! i = Some t /\ (1 <= w t)%nat.
Proof.
  induction ts as [|a ts IH]; simpl; [lia|]. intros H.
  destruct (w a) eqn:E.
  - destruct IH as (i & t & Hi & Ht); [simpl in H; lia|].
    exists (S i), t. auto.
  - exists O, a. split; [reflexivity|lia].
Qed.

Lemma total_none (w : thread -> nat) (ts : list thread) (i : nat) (t : thread) :
  total w ts = O -> ts !! i = Some t -> w t = O.
Proof. intros H Hi. rewrite (total_lookup w ts i t Hi) in H. lia. Qed.

(** A thread that holds [guard] gives it back within three of its own
    statements. *)
Lemma leave_guard_window (t : thread) (m : memory) :
  holds_guard (t_pc t) = true ->
  exists n t' m',
    thread_iter n t m = Some (t', m') /\ holds_guard (t_pc t') = false.
Proof.
  destruct t as [p tmp todo]; simpl. intros H.
  destruct p; try discriminate.
  - destruct (flag (lock m)) eqn:F.
    + exists 2%nat. do 2 eexists. split; [|shelve].
      cbn. rewrite F. cbn. reflexivity.
    + exists 3%nat. do 2 eexists. split; [|shelve].
      cbn. rewrite F. cbn. reflexivity.
  - exists 2%nat. do 2 eexists. split; [cbn; reflexivity|shelve].
  - exists 1%nat. do 2 eexists. split; [cbn; reflexivity|shelve].
  - exists 1%nat. do 2 eexists. split; [cbn; reflexivity|shelve].
  Unshelve. all: reflexivity.
Qed.

(** A thread that has the lock and does not hold [guard] releases the
    lock within four of its own statements. *)
Lemma leave_section (t : thread) (m : memory) :
  worker_shape t ->
  owns_flag (t_pc t) = true -> holds_guard (t_pc t) = false ->
  exists n t' m',
    thread_iter n t m = Some (t', m')
    /\ owns_flag (t_pc t') = false /\ holds_guard (t_pc t') = false.
Proof.
  destruct t as [p tmp todo]. intros [k Hk]; simpl in *. intros Ho Hg.
  destruct p; try discriminate; subst todo.
  - exists 4%nat. destruct k; do 2 eexists; (split; [cbn; reflexivity|split; reflexivity]).
  - exists 1%nat. destruct k; do 2 eexists; (split; [cbn; reflexivity|split; reflexivity]).
  - exists 3%nat. destruct k; do 2 eexists; (split; [cbn; reflexivity|split; reflexivity]).
  - exists 2%nat. destruct k; do 2 eexists; (split; [cbn; reflexivity|split; reflexivity]).
Qed.

(** One round, from wherever the thread waits, when the lock is free. *)
Lemma one_round_from_waiting (p : pc) (tmp : Z) (k : nat) (m : memory) :
  waiting p = true -> lock_is_free m ->
  exists n m',
    thread_iter n (mk_thread p tmp (OpIncr :: OpRelease :: worker k)) m
    = Some (idle_worker (counter m) k, m')
    /\ lock_is_free m'.
Proof.
  destruct m as [[f g q] c]. unfold lock_is_free; simpl. intros Hp [-> ->].
  destruct p; try discriminate.
  - exists 9%nat. destruct k; eexists; (split; [cbn; reflexivity|split; reflexivity]).
  - exists 8%nat. destruct k; eexists; (split; [cbn; reflexivity|split; reflexivity]).
  - exists 9%nat. destruct k; eexists; (split; [cbn; reflexivity|split; reflexivity]).
  - exists 9%nat. destruct k; eexists; (split; [cbn; reflexivity|split; reflexivity]).
Qed.

Lemma thread_iter_then (a b : nat) t m t1 m1 r :
  thread_iter a t m = Some (t1, m1) ->
  thread_iter b t1 m1 = Some r ->
  thread_iter (a + b) t m = Some r.
Proof. intros Ha Hb. rewrite thread_iter_add, Ha. exact Hb. Qed.

(** Left alone with a free lock, a waiting thread runs all its rounds and
    leaves the lock free. *)
Lemma finish_from_waiting (k : nat) :
  forall p tmp m,
    waiting p = true -> lock_is_free m ->
    exists n t' m',
      thread_iter n (mk_thread p tmp (OpIncr :: OpRelease :: worker k)) m
      = Some (t', m')
      /\ finished t' = true /\ lock_is_free m'.
Proof.
  induction k as [|k IH]; intros p tmp m Hp Hm.
  - destruct (one_round_from_waiting p tmp 0 m Hp Hm) as (n & m1 & H1 & Hm1).
    exists n, (idle_worker (counter m) 0), m1. auto.
  - destruct (one_round_from_waiting p tmp (S k) m Hp Hm) as (n & m1 & H1 & Hm1).
    destruct (IH L33 (counter m) m1 eq_refl Hm1) as (n2 & t' & m2 & H2 & Hf & Hm2).
    exists (n + n2)%nat, t', m2. split; [|auto].
    exact (thread_iter_then _ _ _ _ _ _ _ H1 H2).
Qed.

Lemma finish_idle_thread (t : thread) (m : memory) :
  idle_shape t -> lock_is_free m ->
  exists n t' m',
    thread_iter n t m = Some (t', m') /\ finished t' = true /\ lock_is_free m'.
Proof.
  intros [Hf|(Hp & k & Hk)] Hm.
  - exists O, t, m. auto.
  - destruct t as [p tmp todo]; simpl in *; subst todo.
    exact (finish_from_waiting k p tmp m Hp Hm).
Qed.

(** With a free lock and every thread idle, the threads can be run to
    completion one after the other. *)
Lemma finish_idle_threads :
  forall (n : nat) (s : system),
    (n <= length (threads s))%nat ->
    lock_is_free (mem s) -> Forall idle_shape (threads s) ->
    exists more,
      lock_is_free (mem (exec more s))
      /\ Forall idle_shape (threads (exec more s))
      /\ length (threads (exec more s)) = length (threads s)
      /\ forall j t, (j < n)%nat -> threads (exec more s) !! j = Some t ->
                     finished t = true.
Proof.
  induction n as [|n IH]; intros s Hn Hfree Hidle.
  - exists []. simpl. split; [exact Hfree|]. split; [exact Hidle|].
    split; [reflexivity|]. intros j t Hj. lia.
  - destruct (IH s ltac:(lia) Hfree Hidle) as (more & Hfree1 & Hidle1 & Hlen1 & Hfin1).
    destruct (lookup_lt_is_Some_2 (threads (exec more s)) n) as [t Ht]; [lia|].
    destruct (finish_idle_thread t (mem (exec more s))
                (proj1 (Forall_lookup _ _) Hidle1 n t Ht) Hfree1)
      as (k & t' & m' & Hrun & Hf & Hfree2).
    exists (more ++ replicate k n). rewrite exec_app.
    destruct (exec more s) as [m1 ts1]; simpl in *.
    rewrite (exec_thread_alone n k t m1 ts1 t' m' Ht Hrun). simpl.
    split; [exact Hfree2|]. split; [|split].
    + apply Forall_insert; [exact Hidle1|left; exact Hf].
    + rewrite length_insert. exact Hlen1.
    + intros j tj Hj Hlk. destruct (decide (j = n)) as [->|Hne].
      * rewrite list_lookup_insert_eq in Hlk by (eapply lookup_lt_Some; exact Ht).
        congruence.
      * rewrite list_lookup_insert_ne in Hlk by auto.
        apply (Hfin1 j tj); [lia|exact Hlk].
Qed.

Lemma b2n_true (b : bool) : (1 <= b2n b)%nat -> b = true.
Proof. destruct b; simpl; [reflexivity|lia]. Qed.

(** From any reachable state, the thread that holds [guard], if any, can
    be run until it has given it back. *)
Lemma drain_guard (l : simple_lock_t) (rounds : list nat) (sched : list nat) :
  exists more,
    count holds_guard (threads (exec (sched ++ more) (start l (map worker rounds))))
    = O.
Proof.
  destruct (count holds_guard (threads (exec sched (start l (map worker rounds)))))
    as [|c] eqn:Hc.
  - exists []. rewrite app_nil_r. exact Hc.
  - destruct (total_member _ _ ltac:(unfold count in Hc; rewrite Hc; lia))
      as (i & t & Hlk & Ht).
    apply b2n_true in Ht.
    destruct (leave_guard_window t (mem (exec sched (start l (map worker rounds)))) Ht)
      as (n & t' & m' & Hrun & Hout).
    exists (replicate n i).
    pose proof (inv_guard_exec l (map worker rounds) (sched ++ replicate n i)) as Hg'.
    pose proof (inv_guard_exec l (map worker rounds) sched) as Hg.
    rewrite exec_app in Hg' |- *. unfold inv_guard in Hg, Hg'.
    destruct (exec sched (start l (map worker rounds))) as [m ts]; simpl in *.
    rewrite (exec_thread_alone i n t m ts t' m' Hlk Hrun) in Hg' |- *. simpl in *.
    unfold count in *. rewrite (total_insert _ _ _ _ _ Hlk).
    rewrite (total_lookup _ _ _ _ Hlk), Ht in Hg. rewrite Hout. simpl in *.
    destruct (guard (lock m)); simpl in Hg; lia.
Qed.

(** And then the thread that has the lock, if any, can be run until it
    has released it. *)
Lemma drain_section (l : simple_lock_t) (rounds : list nat) (sched : list nat) :
  count holds_guard (threads (exec sched (start l (map worker rounds)))) = O ->
  exists more,
    count holds_guard (threads (exec (sched ++ more) (start l (map worker rounds))))
    = O
    /\ count owns_flag (threads (exec (sched ++ more) (start l (map worker rounds))))
       = O.
Proof.
  intros Hg0.
  destruct (count owns_flag (threads (exec sched (start l (map worker rounds)))))
    as [|c] eqn:Hc.
  - exists []. rewrite app_nil_r. auto.
  - destruct (total_member _ _ ltac:(unfold count in Hc; rewrite Hc; lia))
      as (i & t & Hlk & Ht).
    apply b2n_true in Ht.
    destruct (inv_worker_exec l rounds sched) as (Hshape & _ & Hf & _).
    pose proof (total_none _ _ _ _ Hg0 Hlk) as Hgt.
    assert (Hgt' : holds_guard (t_pc t) = false)
      by (simpl in Hgt; revert Hgt; destruct (holds_guard (t_pc t)); simpl;
          [discriminate|reflexivity]).
    destruct (leave_section t (mem (exec sched (start l (map worker rounds))))
                (proj1 (Forall_lookup _ _) Hshape i t Hlk) Ht Hgt')
      as (n & t' & m' & Hrun & Hout & Hout').
    exists (replicate n i). rewrite exec_app.
    destruct (exec sched (start l (map worker rounds))) as [m ts]; simpl in *.
    rewrite (exec_thread_alone i n t m ts t' m' Hlk Hrun). simpl.
    unfold count in *. rewrite !(total_insert _ _ _ _ _ Hlk).
    rewrite (total_lookup (fun t => b2n (holds_guard (t_pc t))) _ _ _ Hlk) in Hg0.
    rewrite (total_lookup (fun t => b2n (owns_flag (t_pc t))) _ _ _ Hlk) in Hf.
    rewrite Ht in Hf. rewrite Hout, Hout'. simpl in *.
    destruct (flag (lock m)); simpl in Hf; lia.
Qed.

Lemma idle_when_drained (n : nat) (s : system) :
  inv_worker n s ->
  count holds_guard (threads s) = O -> count owns_flag (threads s) = O ->
  lock_is_free (mem s) /\ Forall idle_shape (threads s).
Proof.
  intros (Hshape & Hg & Hf & _) Hg0 Ho0. unfold inv_guard in Hg.
  rewrite Hg0 in Hg. rewrite Ho0 in Hf. split.
  - split; [destruct (flag (lock (mem s)))|destruct (guard (lock (mem s)))];
      simpl in *; congruence.
  - apply Forall_lookup. intros i t Hlk.
    pose proof (total_none _ _ _ _ Hg0 Hlk) as H1.
    pose proof (total_none _ _ _ _ Ho0 Hlk) as H2.
    destruct (proj1 (Forall_lookup _ _) Hshape i t Hlk) as [k Hk].
    destruct t as [p tmp todo]; simpl in *.
    destruct p; simpl in *; try discriminate; subst todo;
      first [left; reflexivity|right; split; [reflexivity|exists k; reflexivity]].
Qed.

(** X4: Every execution of threads running [thread_function] any number of
    times, however far it has got and in whatever order, can be continued
    until all the threads have finished: the lock never reaches a state in
    which some thread can no longer get it. *)
Theorem no_execution_gets_stuck
  (l : simple_lock_t) (rounds : list nat) (sched : list nat) :
  exists more,
    forallb finished
      (threads (exec (sched ++ more) (start l (map worker rounds))))
    = true.
Proof.
  destruct (drain_guard l rounds sched) as (m1 & H1).
  destruct (drain_section l rounds (sched ++ m1) H1) as (m2 & H2 & H3).
  pose proof (inv_worker_exec l rounds ((sched ++ m1) ++ m2)) as Hinv.
  destruct (idle_when_drained _ _ Hinv H2 H3) as [Hfree Hidle].
  destruct (finish_idle_threads _ _ (Nat.le_refl _) Hfree Hidle)
    as (m3 & _ & _ & Hlen & Hfin).
  exists (m1 ++ m2 ++ m3).
  rewrite !app_assoc, (exec_app ((sched ++ m1) ++ m2) m3).
  apply forallb_forall. intros t Ht.
  apply list_elem_of_In, list_elem_of_lookup in Ht as [j Hj].
  apply (Hfin j t); [|exact Hj].
  rewrite <- Hlen. eapply lookup_lt_Some; exact Hj.
Qed.

(* ================================================================== *)
(** * [pointer_examples.c]: arithmetic through function pointers *)

Lemma checked_some (z : Z) : PointerExamples.is_int z -> PointerExamples.checked z = Some z.
Proof.
  unfold PointerExamples.is_int, PointerExamples.checked. intros H.
  destruct (INT_MIN <=? z) eqn:E1, (z <=? INT_MAX) eqn:E2; simpl; try reflexivity; lia.
Qed.

Lemma checked_inv (z r : Z) :
  PointerExamples.checked z = Some r -> r = z /\ PointerExamples.is_int z.
Proof.
  unfold PointerExamples.is_int, PointerExamples.checked.
  destruct (INT_MIN <=? z) eqn:E1, (z <=? INT_MAX) eqn:E2; simpl; try discriminate.
  intros H; inversion H; subst. split; [reflexivity|lia].
Qed.

Lemma checked_none (z : Z) :
  PointerExamples.checked z = None -> ~ PointerExamples.is_int z.
Proof. intros H Hz. rewrite (checked_some z Hz) in H. discriminate. Qed.

(** The product of the divisor and the truncated quotient lies between
    zero and the dividend. *)
Lemma quot_back_between (a b : Z) :
  b <> 0 ->
  (0 <= a -> 0 <= b * (a ÷ b) <= a) /\ (a <= 0 -> a <= b * (a ÷ b) <= 0).
Proof.
  intros Hb. split; intros Ha.
  - apply Z.mul_quot_le; assumption.
  - apply Z.mul_quot_ge; assumption.
Qed.

Lemma quot_overflows_once (a b : Z) :
  PointerExamples.is_int a -> PointerExamples.is_int b -> b <> 0 ->
  (~ PointerExamples.is_int (a ÷ b) <-> a = INT_MIN /\ b = -1).
Proof.
  unfold PointerExamples.is_int, INT_MIN, INT_MAX. intros Ha Hb Hb0.
  destruct (quot_back_between a b Hb0) as [Hpos Hneg].
  split.
  - intros H. assert (a ÷ b < - 2 ^ 31 \/ 2 ^ 31 - 1 < a ÷ b) as [Hq|Hq] by lia.
    + exfalso. destruct (Z_le_gt_dec 0 a) as [Ha0|Ha0].
      * specialize (Hpos Ha0). nia.
      * specialize (Hneg ltac:(lia)). nia.
    + destruct (Z_le_gt_dec 0 a) as [Ha0|Ha0].
      * specialize (Hpos Ha0). exfalso. nia.
      * specialize (Hneg ltac:(lia)). split; nia.
  - intros [-> ->]. vm_compute. intros [_ H]. apply H. reflexivity.
Qed.

(** X10: [divide] called through [calculate] returns 0 for a zero divisor, and
    for [int] arguments it is undefined in exactly one case, [INT_MIN]
    divided by -1. *)
Theorem divide_guards_zero_but_not_overflow (a b : Z) :
  PointerExamples.is_int a -> PointerExamples.is_int b ->
  PointerExamples.calculate PointerExamples.divide a 0 = Some 0
  /\ (PointerExamples.calculate PointerExamples.divide a b = None
      <-> a = INT_MIN /\ b = -1).
Proof.
  unfold PointerExamples.calculate, PointerExamples.divide.
  intros Ha Hb. split; [reflexivity|].
  destruct (b =? 0) eqn:E.
  - split; [discriminate|]. apply Z.eqb_eq in E. lia.
  - apply Z.eqb_neq in E.
    rewrite <- (quot_overflows_once a b Ha Hb E). split.
    + apply checked_none.
    + intros H. destruct (PointerExamples.checked (a ÷ b)) as [r|] eqn:C;
        [|reflexivity].
      apply checked_inv in C as [_ C]. contradiction.
Qed.

Lemma divide_guards_zero_but_not_overflow_witness :
  PointerExamples.calculate PointerExamples.divide INT_MIN 0 = Some 0
  /\ (PointerExamples.calculate PointerExamples.divide INT_MIN (-1) = None
      <-> INT_MIN = INT_MIN /\ -1 = -1).
Proof.
  apply (divide_guards_zero_but_not_overflow INT_MIN (-1));
    unfold PointerExamples.is_int, INT_MIN, INT_MAX; lia.
Defined.

(** X11: [subtract] undoes [add]: when the sum of two [int]s is defined,
    subtracting the second operand from it is defined too and gives back
    the first. *)
Theorem subtract_undoes_add (a b s : Z) :
  PointerExamples.is_int a ->
  PointerExamples.calculate PointerExamples.add a b = Some s ->
  PointerExamples.calculate PointerExamples.subtract s b = Some a.
Proof.
  unfold PointerExamples.calculate, PointerExamples.add, PointerExamples.subtract.
  intros Ha H. apply checked_inv in H as [-> _].
  replace (a + b - b) with a by lia. apply checked_some. exact Ha.
Qed.

Lemma subtract_undoes_add_witness :
  PointerExamples.calculate PointerExamples.subtract 15 5 = Some 10.
Proof.
  apply (subtract_undoes_add 10 5 15); [|reflexivity].
  unfold PointerExamples.is_int, INT_MIN, INT_MAX. lia.
Defined.

(** X12: Multiplying the quotient back never overflows: for [int]s [a] and
    [b] with a defined quotient [q], [multiply q b] is defined and differs
    from [a] by the remainder, which is smaller than [b] in absolute value
    and has the sign of [a]. *)
Theorem multiply_after_divide (a b q : Z) :
  PointerExamples.is_int a -> b <> 0 ->
  PointerExamples.calculate PointerExamples.divide a b = Some q ->
  exists p r,
    PointerExamples.calculate PointerExamples.multiply q b = Some p
    /\ a = p + r /\ Z.abs r < Z.abs b /\ 0 <= r * a.
Proof.
  unfold PointerExamples.calculate, PointerExamples.divide, PointerExamples.multiply.
  intros Ha Hb H. destruct (b =? 0) eqn:E; [apply Z.eqb_eq in E; contradiction|].
  apply checked_inv in H as [-> Hq].
  exists (a ÷ b * b), (Z.rem a b).
  pose proof (Z.quot_rem' a b) as Hqr.
  pose proof (Z.rem_bound_abs a b Hb) as Hr.
  pose proof (Z.rem_sign_mul a b Hb) as Hs.
  destruct (quot_back_between a b Hb) as [Hpos Hneg].
  split; [|split; [lia|split; [exact Hr|lia]]].
  apply checked_some. unfold PointerExamples.is_int, INT_MIN, INT_MAX in *.
  destruct (Z_le_gt_dec 0 a) as [Ha0|Ha0];
    [specialize (Hpos Ha0)|specialize (Hneg ltac:(lia))]; lia.
Qed.

Lemma multiply_after_divide_witness :
  exists p r,
    PointerExamples.calculate PointerExamples.multiply (-3) 3 = Some p
    /\ -10 = p + r /\ Z.abs r < Z.abs 3 /\ 0 <= r * -10.
Proof.
  apply (multiply_after_divide (-10) 3 (-3)); [|lia|reflexivity].
  unfold PointerExamples.is_int, INT_MIN, INT_MAX. lia.
Defined.
